(** * ada-pr-checker: the [check] command of [src/index.js]

    A shallow embedding of the pull-request checker: the wildcard test,
    the staleness cutoff, the per-repository reconciliation
    [_checkPRsForRepo], the defaults of the [check] options and the
    handler that fans the repositories out under a concurrency limit.

    - An [async] body is a function from the world it has built so far
      (requests issued, lines handed to [sortedLog]) to an outcome and a
      new world; [await] is the bind of that monad.
    - The answers of [lib/github], chrono-node's [parseDate] and the clock
      of [moment()] are inputs of the run.
    - [sortedLog] and the concurrency limiter live outside [src/index.js];
      they are modelled from the specification and marked as such.
    - A batch of repositories is a state machine: the handler submits the
      bodies to the limiter, and then the bodies complete one at a time in
      an arbitrary order, the schedule. *)

From Stdlib Require Import ZArith String List Lia.
From stdpp Require Import base list strings pretty gmap.

Open Scope Z_scope.
Open Scope string_scope.
Open Scope list_scope.

(** ** Data *)

(** What the remote API returns for a pull request: [pr.number] and
    [pr.user.login] are the two fields the program reads. *)
Record PullData := { number : Z; user_login : string }.

(** [{id: pr.number, user: pr.user.login}] *)
Record Pull := { id : Z; user : string }.

(** A review record; only [state] is read. *)
Record Review := { state : string }.

(** The text handed to [sortedLog], one constructor per template string of
    [_checkPRsForRepo], holding the values the template interpolates. *)
Inductive Report :=
| NoPulls (user repo : string)
| NeedsReview (user repo prUrl cloneCmd : string)
| Reviewed (user repo state : string).

(** The outbound requests of [lib/github]. *)
Inductive Call :=
| GetRepo (org repo : string) (maxCacheAge : Z)
| GetReviews (org repo : string) (id : Z) (maxCacheAge : Z).

(** What a JavaScript [throw] or a rejected promise carries. *)
Inductive Error :=
| JsError (message : string)   (* new Error(message) *)
| FetchError                   (* a rejected github.getRepo / getReviews *)
| TypeError.                   (* property access on undefined *)

Definition Result (A : Type) : Type := Error + A.

(** ** Rendering

    [chalk] only decorates text; with colours switched off it is the
    identity, and [render] is then the exact string of the source. *)
Section Rendering.
Inductive Style := magenta | cyan | white | bold_bgRed_white
                 | white_bold_bgRed | green | red_bold.

Variable chalk : Style → string → string.

Definition LF : string := String (Ascii.ascii_of_nat 10) "".
Definition TAB : string := String (Ascii.ascii_of_nat 9) "".

Definition _prefix (user repo : string) : string :=
  chalk magenta user +:+ " -> " +:+ chalk cyan repo.

Definition render (r : Report) : string :=
  match r with
  | NoPulls user repo =>
      _prefix user repo +:+ ": " +:+ chalk white "no pulls found"
  | NeedsReview user repo prUrl cloneCmd =>
      _prefix user repo +:+ ": " +:+ chalk bold_bgRed_white "needs review!"
        +:+ LF +:+ TAB +:+ chalk white_bold_bgRed prUrl
        +:+ LF +:+ TAB +:+ chalk cyan cloneCmd +:+ LF
  | Reviewed user repo state =>
      _prefix user repo +:+ ": " +:+ chalk green "reviewed"
        +:+ ", status: " +:+ state
  end.
End Rendering.

Definition plain : Style → string → string := λ _ s, s.

(** How many elements of a list pass a test. *)
Definition count {A} (p : A → bool) (l : list A) : nat :=
  length (filter (λ x, p x = true) l).

(** ** Small helpers of [src/index.js] *)

(** [x.length === 1 && x[0] === '@'] *)
Definition _arrayIsWildcard (x : list string) : bool :=
  bool_decide (length x = 1%nat) && bool_decide (x !! 0%nat = Some "@").

Definition MAX_CONCURRENT_REPO_CHECKS : nat := 5.

(** [array-uniq]: the elements in order of first occurrence. *)
Fixpoint arrDedupe_from (seen : list string) (l : list string) : list string :=
  match l with
  | [] => []
  | x :: l' =>
      if bool_decide (x ∈ seen) then arrDedupe_from seen l'
      else x :: arrDedupe_from (x :: seen) l'
  end.

Definition arrDedupe (l : list string) : list string := arrDedupe_from [] l.

(** [_negateDate]: [parseDate] is chrono-node's (a [Date] or [null]),
    [now] the value of [moment()]; both subtractions are on milliseconds. *)
Definition _negateDate (parseDate : string → option Z) (now : Z)
    (dateStr : string) : Result Z :=
  let parsed := parseDate dateStr in
  match parsed with
  | Some parsed =>
      let duration := parsed - now in
      inr (now - duration)
  | None => inl (JsError "Invalid maxCacheAge.")
  end.

(** ** Effects of an [async] body

    An [async] function is run against the record of what it has done so
    far: the requests it issued and the lines it handed to [sortedLog]. It
    either returns or throws. *)
Record World := { calls : list Call; logged : list Report }.

Definition start : World := {| calls := []; logged := [] |}.

Definition Task (A : Type) : Type := World → Result A * World.

Definition ret {A} (a : A) : Task A := λ w, (inr a, w).

Definition throw {A} (e : Error) : Task A := λ w, (inl e, w).

Definition bind {A B} (m : Task A) (k : A → Task B) : Task B :=
  λ w, match m w with
       | (inr a, w') => k a w'
       | (inl e, w') => (inl e, w')
       end.

Notation "x <- m ;; k" := (bind m (λ x, k))
  (at level 20, m at level 99, k at level 200, only parsing).
Notation "m ;; k" := (bind m (λ _, k))
  (at level 100, k at level 200, right associativity, only parsing).

(** [for (const x of xs) body(x)] *)
Fixpoint forOf {A} (xs : list A) (body : A → Task unit) : Task unit :=
  match xs with
  | [] => ret tt
  | x :: xs' => body x ;; forOf xs' body
  end.

(** [await Promise.all(ps)]: every element of [ps] has already been
    started by the [map] that built the array, so all of them act on the
    world; the join throws when one of them is rejected. Which rejection it
    throws is a matter of timing; the first in array order stands for it. *)
Fixpoint Promise_all {A} (ps : list (Task A)) : Task (list A) :=
  match ps with
  | [] => ret []
  | p :: ps' =>
      λ w, let '(r, w1) := p w in
           let '(rs, w2) := Promise_all ps' w1 in
           (match r, rs with
            | inl e, _ => inl e
            | inr _, inl e => inl e
            | inr a, inr l => inr (a :: l)
            end, w2)
  end.

(** Modelled from the spec: [sortedLog] of the separate module
    [lib/sortedLog], the Ordered Reporter, whose [report(line)] takes a
    full line and buffers it. *)
Definition sortedLog (line : Report) : Task unit :=
  λ w, (inr tt, {| calls := calls w; logged := logged w ++ [line] |}).

Definition request (c : Call) : Task unit :=
  λ w, (inr tt, {| calls := calls w ++ [c]; logged := logged w |}).

Definition settle {A} (r : Result A) : Task A := λ w, (r, w).

(** ** Reconciliation of one repository *)

Definition isNoPulls (r : Report) : bool :=
  match r with NoPulls _ _ => true | _ => false end.

Section Reconciliation.

(** [lib/github] is a separate module: [getRepo] and [getReviews] are
    taken as they answer during one run, a payload or a rejection. *)
Variable getRepo : string → string → Z → Result (list PullData).
Variable getReviews : string → string → Z → Z → Result (list Review).

Definition github_getRepo (org repo : string) (maxCacheAge : Z)
    : Task (list PullData) :=
  request (GetRepo org repo maxCacheAge) ;;
  settle (getRepo org repo maxCacheAge).

Definition github_getReviews (org repo : string) (id : Z) (maxCacheAge : Z)
    : Task (list Review) :=
  request (GetReviews org repo id maxCacheAge) ;;
  settle (getReviews org repo id maxCacheAge).

(** [pulls.some(pr => pr.user === user)] *)
Definition some_by (pulls : list Pull) (u : string) : bool :=
  existsb (λ pr, bool_decide (user pr = u)) pulls.

(** Lines 84-90: the pulls and the users the rest of the body works on. *)
Definition selectPulls (users : list string) (pulls : list Pull)
    : list Pull * list string :=
  if negb (_arrayIsWildcard users) then
    (* Filter users *)
    (filter (λ pr, user pr ∈ users) pulls, users)
  else
    (* Get all usernames *)
    (pulls, arrDedupe (map user pulls)).

(** Lines 93-97: check for missing PRs. *)
Definition checkMissing (repo : string) (users : list string)
    (pulls : list Pull) : Task unit :=
  forOf users (λ u,
    if negb (some_by pulls u) then sortedLog (NoPulls u repo) else ret tt).

Definition prUrl (org repo : string) (pr : Pull) : string :=
  "https://github.com/" +:+ org +:+ "/" +:+ repo +:+ "/pull/"
    +:+ pretty (id pr) +:+ "/changes".

Definition cloneCmd (repo : string) (pr : Pull) : string :=
  "git clone https://github.com/" +:+ user pr +:+ "/" +:+ repo +:+ " "
    +:+ user pr +:+ "/" +:+ repo.

(** Lines 107-129: the body of the loop over [reviewsForPulls]. *)
Definition reportPull (org repo : string) (pulls : list Pull)
    (reviewsForPulls : list (list Review)) (i : nat) : Task unit :=
  match pulls !! i, reviewsForPulls !! i with
  | Some pr, Some reviews =>
      if bool_decide (length reviews < 1)%nat then
        sortedLog (NeedsReview (user pr) repo (prUrl org repo pr)
                               (cloneCmd repo pr))
      else
        (* Check review status *)
        match reviews !! 0%nat with
        | Some review => sortedLog (Reviewed (user pr) repo (state review))
        | None => throw TypeError
        end
  | _, _ => throw TypeError
  end.

Definition _checkPRsForRepo (org repo : string) (users : list string)
    (maxCacheAge : Z) : Task unit :=
  (* Get PRs for repo *)
  pullData <- github_getRepo org repo maxCacheAge ;;
  let pulls :=
    map (λ pr, {| id := number pr; user := user_login pr |}) pullData in
  let '(pulls, users) := selectPulls users pulls in
  (* Check for missing PRs *)
  checkMissing repo users pulls ;;
  (* Get reviews for PR(s) *)
  reviewsForPulls <-
    Promise_all
      (map (λ pr, github_getReviews org repo (id pr) maxCacheAge) pulls) ;;
  forOf (seq 0 (length reviewsForPulls))
    (reportPull org repo pulls reviewsForPulls).

(** *** What one run amounts to *)

Definition toPulls (pullData : list PullData) : list Pull :=
  map (λ pr, {| id := number pr; user := user_login pr |}) pullData.

(** The users reported as having no pull request. *)
Definition missing (repo : string) (users : list string)
    (pulls : list Pull) : list Report :=
  map (λ u, NoPulls u repo)
      (filter (λ u, some_by pulls u = false) users).

(** The verdict on one pull request, by cases on its reviews. *)
Definition verdict (org repo : string) (pr : Pull) (reviews : list Review)
    : Report :=
  match reviews with
  | [] => NeedsReview (user pr) repo (prUrl org repo pr) (cloneCmd repo pr)
  | review :: _ => Reviewed (user pr) repo (state review)
  end.

(** A join of settled promises: the first rejection, or every value. *)
Fixpoint joined {A} (rs : list (Result A)) : Result (list A) :=
  match rs with
  | [] => inr []
  | r :: rs' =>
      match r, joined rs' with
      | inl e, _ => inl e
      | inr _, inl e => inl e
      | inr a, inr l => inr (a :: l)
      end
  end.

Definition fetchedReviews (org repo : string) (maxCacheAge : Z)
    (pulls : list Pull) : Result (list (list Review)) :=
  joined (map (λ pr, getReviews org repo (id pr) maxCacheAge) pulls).

(** One reconciliation on its own: how it ends, the lines it hands to
    [sortedLog] and the requests it issues. *)
Definition outcome (org repo : string) (users : list string)
    (maxCacheAge : Z) : Result unit :=
  fst (_checkPRsForRepo org repo users maxCacheAge start).

Definition reports (org repo : string) (users : list string)
    (maxCacheAge : Z) : list Report :=
  logged (snd (_checkPRsForRepo org repo users maxCacheAge start)).

Definition requests (org repo : string) (users : list string)
    (maxCacheAge : Z) : list Call :=
  calls (snd (_checkPRsForRepo org repo users maxCacheAge start)).

(** The lines of a run other than "no pulls found". *)
Definition reviewLines (org repo : string) (users : list string)
    (maxCacheAge : Z) : list Report :=
  filter (λ r, isNoPulls r = false) (reports org repo users maxCacheAge).

End Reconciliation.

(** A "no pulls found" line for author [a]. *)
Definition isMissingFor (a : string) (r : Report) : bool :=
  match r with
  | NoPulls u _ => bool_decide (u = a)
  | _ => false
  end.

(** A "needs review!" or "reviewed" line for author [a]. *)
Definition isReviewFor (a : string) (r : Report) : bool :=
  match r with
  | NeedsReview u _ _ _ | Reviewed u _ _ => bool_decide (u = a)
  | NoPulls _ _ => false
  end.

(** The staleness cutoff a request was issued with. *)
Definition cutoffOf (c : Call) : Z :=
  match c with
  | GetRepo _ _ m | GetReviews _ _ _ m => m
  end.

(** ** The [check] command *)

(** The keys of the persisted configuration the command reads;
    [config.get] gives [undefined] for a key that is not set. *)
Record Config := {
  githubAuthors : option (list string);
  githubOrg : option string;
  cacheExpiry : option string;
  allGithubRepos : option (list string)
}.

(** The command line of [check <repos...>], options as given or not. *)
Record Argv := {
  repos : list string;
  authors : option (list string);
  org : option string;
  maxCacheAge : option string
}.

(** [opts] as the handler receives it. *)
Record Opts := {
  opts_repos : list string;
  opts_authors : list string;
  opts_org : string;
  opts_maxCacheAge : Z
}.

(** [a || b] where [a] is a string or [undefined]: the empty string is
    falsy as well. *)
Definition or_string (a : option string) (b : string) : string :=
  match a with
  | Some s => if bool_decide (s = "") then b else s
  | None => b
  end.

(** [a || b] where [a] is an array or [undefined]: every array is truthy. *)
Definition or_array (a : option (list string)) (b : list string)
    : list string :=
  match a with
  | Some l => l
  | None => b
  end.

(** The state of one promise returned by [limit]: its body waits in the
    limiter's queue, is executing, or has settled with what it did. *)
Inductive TaskState :=
| Queued
| Running
| Settled (r : Result unit) (w : World).

(** The state of a promise as [Promise.all] sees it. *)
Inductive PromiseState := Pending | Fulfilled | Rejected.

Definition promiseOf (t : TaskState) : PromiseState :=
  match t with
  | Queued | Running => Pending
  | Settled (inr _) _ => Fulfilled
  | Settled (inl _) _ => Rejected
  end.

Definition isRejected (p : PromiseState) : bool :=
  match p with Rejected => true | _ => false end.

Definition isFulfilled (p : PromiseState) : bool :=
  match p with Fulfilled => true | _ => false end.

(** [Promise.all(promises)] as a promise: rejected once an element is
    rejected, fulfilled once every element is fulfilled. *)
Definition Promise_all_state (ps : list PromiseState) : PromiseState :=
  if existsb isRejected ps then Rejected
  else if forallb isFulfilled ps then Fulfilled
  else Pending.

(** A batch in flight: the limit the limiter was created with, the bodies
    handed to [limit], the promises [limit] returned for them, and the
    limiter's counter and queue. *)
Record Batch := {
  concurrency : nat;
  bodies : list (Task unit);
  promises : list TaskState;
  activeCount : nat;
  queue : list nat
}.

Definition isRunning (t : TaskState) : bool :=
  match t with Running => true | _ => false end.

Definition isSettled (t : TaskState) : bool :=
  match t with Settled _ _ => true | _ => false end.

(** The number of bodies executing, and of promises not yet settled. *)
Definition executing (b : Batch) : nat := count isRunning (promises b).

Definition unsettled (b : Batch) : nat :=
  count (λ t, negb (isSettled t)) (promises b).

(** Modelled from the spec: the Concurrency Limiter (the [p-limit]
    package), created with its cap and nothing scheduled. *)
Definition pLimit (concurrency : nat) : Batch :=
  {| concurrency := concurrency;
     bodies := []; promises := []; activeCount := 0; queue := [] |}.

(** Modelled from the spec: the Concurrency Limiter: a body starts
    executing when it is admitted. *)
Definition run (i : nat) (b : Batch) : Batch :=
  {| concurrency := concurrency b;
     bodies := bodies b;
     promises := <[i := Running]> (promises b);
     activeCount := S (activeCount b);
     queue := queue b |}.

(** Modelled from the spec: the Concurrency Limiter: at most [concurrency]
    bodies execute; tasks queue in FIFO submission order when the limiter
    is saturated. *)
Definition enqueue (i : nat) (b : Batch) : Batch :=
  if bool_decide (activeCount b < concurrency b)%nat then run i b
  else {| concurrency := concurrency b;
          bodies := bodies b;
          promises := promises b;
          activeCount := activeCount b;
          queue := queue b ++ [i] |}.

(** Modelled from the spec: the Concurrency Limiter: a completing task
    immediately admits the next queued task, whether it succeeded or
    failed. *)
Definition next (b : Batch) : Batch :=
  match queue b with
  | [] =>
      {| concurrency := concurrency b;
         bodies := bodies b;
         promises := promises b;
         activeCount := pred (activeCount b);
         queue := [] |}
  | j :: q =>
      run j {| concurrency := concurrency b;
               bodies := bodies b;
               promises := promises b;
               activeCount := pred (activeCount b);
               queue := q |}
  end.

(** Modelled from the spec: the Concurrency Limiter's
    [schedule(task) -> Promise]: [limit(fn)] returns a new promise and
    submits [fn]. *)
Definition limit (fn : Task unit) (b : Batch) : Batch :=
  enqueue (length (promises b))
    {| concurrency := concurrency b;
       bodies := bodies b ++ [fn];
       promises := promises b ++ [Queued];
       activeCount := activeCount b;
       queue := queue b |}.

(** The body of task [i] settles: its promise takes the body's outcome and
    the limiter moves on. Nothing happens for a task that is not
    executing. *)
Definition complete (b : Batch) (i : nat) : Batch :=
  match promises b !! i, bodies b !! i with
  | Some Running, Some fn =>
      let '(r, w) := fn start in
      next {| concurrency := concurrency b;
              bodies := bodies b;
              promises := <[i := Settled r w]> (promises b);
              activeCount := activeCount b;
              queue := queue b |}
  | _, _ => b
  end.

(** The bodies settle in the order of a schedule. *)
Definition exec (b : Batch) (schedule : list nat) : Batch :=
  fold_left complete schedule b.

(** What holds of the limiter's bookkeeping in every batch the handler
    can reach. *)
Record Inv (b : Batch) : Prop := {
  inv_bodies : length (bodies b) = length (promises b);
  inv_active : activeCount b = executing b;
  inv_cap : (activeCount b ≤ concurrency b)%nat;
  inv_pos : (0 < concurrency b)%nat;
  inv_nodup : NoDup (queue b);
  inv_queue : ∀ i, i ∈ queue b ↔ promises b !! i = Some Queued;
  inv_saturated : queue b ≠ [] → activeCount b = concurrency b;
  inv_settled : ∀ i r w, promises b !! i = Some (Settled r w) →
                ∃ fn, bodies b !! i = Some fn ∧ fn start = (r, w)
}.

(** The promise the handler returns. *)
Definition returned (b : Batch) : PromiseState :=
  Promise_all_state (map promiseOf (promises b)).

Section Check.

Variable chalk : Style → string → string.
Variable config : Config.
(** chrono-node's [parseDate], the clock read by [moment()] and the
    whole months [moment().diff(moment('2013-06-01'), 'months')]. *)
Variable parseDate : string → option Z.
Variable now : Z.
Variable months : Z.
Variable getRepo : string → string → Z → Result (list PullData).
Variable getReviews : string → string → Z → Z → Result (list Review).

(** The [default] of the [org] option: the lines it prints with
    [console.log] and the value it returns. *)
Definition orgDefault : list string * string :=
  let cohort := months / 6 in
  let autoOrgName := "Ada-C" +:+ pretty cohort in
  let cfgOrg := githubOrg config in
  let console :=
    match cfgOrg with
    | Some cfgOrg =>
        if negb (bool_decide (cfgOrg = ""))
           && String.prefix "Ada-C" cfgOrg
           && negb (bool_decide (cfgOrg = autoOrgName))
        then [chalk red_bold "WARN GitHub org name may be outdated!";
              chalk red_bold (TAB +:+ cfgOrg +:+ " --> " +:+ autoOrgName)]
        else []
    | None => []
    end in
  (console, or_string cfgOrg autoOrgName).

(** The string the [coerce] of [maxCacheAge] receives: the option as
    given, or its default. *)
Definition ageGiven (argv : Argv) : string :=
  match maxCacheAge argv with
  | Some age => age
  | None => or_string (cacheExpiry config) "60 minutes"
  end.

(** The defaults and the [coerce] of the options. *)
Definition options (argv : Argv) : Result Opts :=
  match _negateDate parseDate now (ageGiven argv) with
  | inl e => inl e
  | inr cutoff =>
      inr {| opts_repos := repos argv;
             opts_authors :=
               match authors argv with
               | Some a => a
               | None => or_array (githubAuthors config) ["@"]
               end;
             opts_org :=
               match org argv with
               | Some o => o
               | None => snd orgDefault
               end;
             opts_maxCacheAge := cutoff |}
  end.

(** The repositories the handler works on. *)
Definition resolveRepos (repos : list string) : list string :=
  if _arrayIsWildcard repos then or_array (allGithubRepos config) []
  else repos.

(** [repos.map(repo => limit(() => _checkPRsForRepo(...)))] on a fresh
    limiter, for the repositories mapped so far. *)
Definition submitted (opts : Opts) (repos : list string) : Batch :=
  fold_left
    (λ b repo,
       limit (_checkPRsForRepo getRepo getReviews (opts_org opts) repo
                (opts_authors opts) (opts_maxCacheAge opts)) b)
    repos (pLimit MAX_CONCURRENT_REPO_CHECKS).

(** The handler up to its [return]: every repository has been handed to
    [limit]. *)
Definition handler (opts : Opts) : Batch :=
  let repos := resolveRepos (opts_repos opts) in
  submitted opts repos.

(** The batch of the handler once the bodies named by a schedule, in
    that order, have completed. *)
Definition batchAfter (opts : Opts) (schedule : list nat) : Batch :=
  exec (handler opts) schedule.

(** One invocation of [check]: what the option defaults print, and the
    batch the handler starts unless an option is rejected. *)
Definition check (argv : Argv) : list string * Result Batch :=
  (fst orgDefault,
   match options argv with
   | inl e => inl e
   | inr opts => inr (handler opts)
   end).

End Check.

(** ** A small world to run the program in *)

Module Scenario.

Definition now : Z := 1700000000000.
Definition months : Z := 100.

Definition parseDate (s : string) : option Z :=
  if bool_decide (s = "60 minutes") then Some (now + 3600000)
  else if bool_decide (s = "yesterday") then Some (now - 86400000)
  else None.

Definition getRepo (org repo : string) (maxCacheAge : Z)
    : Result (list PullData) :=
  if bool_decide (repo = "widgets") then
    inr [{| number := 1; user_login := "alice" |}]
  else if bool_decide (repo = "gadgets") then
    inr [{| number := 2; user_login := "carol" |}]
  else if bool_decide (repo = "flaky") then
    inr [{| number := 3; user_login := "alice" |}]
  else if bool_decide (repo = "down") then inl FetchError
  else inr [].

Definition getReviews (org repo : string) (id : Z) (maxCacheAge : Z)
    : Result (list Review) :=
  if bool_decide (id = 2) then
    inr [{| state := "APPROVED" |}; {| state := "CHANGES_REQUESTED" |}]
  else if bool_decide (id = 3) then inl FetchError
  else inr [].

Definition unset : Config :=
  {| githubAuthors := None; githubOrg := None;
     cacheExpiry := None; allGithubRepos := None |}.

Definition config : Config :=
  {| githubAuthors := Some ["alice"; "bob"]; githubOrg := Some "Ada-C3";
     cacheExpiry := None;
     allGithubRepos := Some ["widgets"; "gadgets"] |}.

Definition optsFor (repos : list string) : Opts :=
  {| opts_repos := repos; opts_authors := ["alice"; "bob"];
     opts_org := "Ada-C16"; opts_maxCacheAge := now - 3600000 |}.

Definition argvFor (age : option string) : Argv :=
  {| repos := ["widgets"]; authors := None; org := None;
     maxCacheAge := age |}.

End Scenario.

(** ** The configuration commands *)

Definition SUPPORTED_KEYS : list string :=
  ["githubAuthors"; "githubOrg"; "githubAuthToken"; "cacheExpiry";
   "allGithubRepos"].

(** [_validateConfigKey]: the lines it writes with [console.error], and
    its result. *)
Definition _validateConfigKey (key : string) : list string * bool :=
  if negb (bool_decide (key ∈ SUPPORTED_KEYS)) then
    ("Unknown key name! Supported values are:"
       :: map (λ supportedKey, "- " +:+ supportedKey) SUPPORTED_KEYS,
     false)
  else ([], true).

Definition _configKeyIsArray (key : string) : bool :=
  bool_decide (key ∈ ["allGithubRepos"; "githubAuthors"]).

Section ConfigCommands.

(** A word of the command line as the argument parser hands it over. *)
Variable V : Type.

(** What a key of the store holds: [values[0]] or the array [values]. *)
Inductive Stored :=
| One (v : V)
| Many (vs : list V).

(** What a command prints: a line of [console.error], or the argument
    of [console.log]. *)
Inductive Printed :=
| ErrorLine (line : string)
| LogValue (value : option Stored)
| LogAll (all : gmap string Stored).

(** Modelled from the spec: the persisted configuration store (the
    [configstore] package), [get(key) -> value or absent]. A key is
    looked up as a whole, which is how the store reads a key without a
    dot, as the supported keys all are. *)
Definition config_get (key : string) (store : gmap string Stored)
    : option Stored :=
  store !! key.

(** Modelled from the spec: the persisted configuration store,
    [set(key, value)]; the store is kept as JSON, which has no place for
    a key set to [undefined]. *)
Definition config_set (key : string) (value : option Stored)
    (store : gmap string Stored) : gmap string Stored :=
  match value with
  | Some v => <[key := v]> store
  | None => delete key store
  end.

(** [setConfig <key> <values...>] *)
Definition setConfig (key : string) (values : list V)
    (store : gmap string Stored) : list Printed * gmap string Stored :=
  let '(console, valid) := _validateConfigKey key in
  if negb valid then (map ErrorLine console, store)
  else
    let values :=
      if negb (_configKeyIsArray key) then One <$> values !! 0%nat
      else Some (Many values) in
    (map ErrorLine console, config_set key values store).

(** [getConfig <key>] *)
Definition getConfig (key : string) (store : gmap string Stored)
    : list Printed * gmap string Stored :=
  ([LogValue (config_get key store)], store).

(** [deleteConfig <key>] *)
Definition deleteConfig (key : string) (store : gmap string Stored)
    : list Printed * gmap string Stored :=
  let '(console, valid) := _validateConfigKey key in
  if negb valid then (map ErrorLine console, store)
  else (map ErrorLine console, config_set key None store).

(** [listConfig] *)
Definition listConfig (store : gmap string Stored)
    : list Printed * gmap string Stored :=
  ([LogAll store], store).

Inductive Command :=
| SetConfig (key : string) (values : list V)
| GetConfig (key : string)
| DeleteConfig (key : string)
| ListConfig.

Definition runCommand (cmd : Command) (store : gmap string Stored)
    : list Printed * gmap string Stored :=
  match cmd with
  | SetConfig key values => setConfig key values store
  | GetConfig key => getConfig key store
  | DeleteConfig key => deleteConfig key store
  | ListConfig => listConfig store
  end.

(** One invocation after the other, each on the store the previous one
    left. *)
Fixpoint session (cmds : list Command) (store : gmap string Stored)
    : list Printed * gmap string Stored :=
  match cmds with
  | [] => ([], store)
  | cmd :: cmds' =>
      let '(out, store') := runCommand cmd store in
      let '(outs, store'') := session cmds' store' in
      (out ++ outs, store'')
  end.

Definition isMany (v : Stored) : bool :=
  match v with Many _ => true | One _ => false end.

(** A store whose keys are supported keys, the array keys holding
    arrays and the others single values. *)
Definition wellFormed (store : gmap string Stored) : Prop :=
  ∀ key v, store !! key = Some v →
           key ∈ SUPPORTED_KEYS ∧ isMany v = _configKeyIsArray key.

End ConfigCommands.

Arguments One {V} v.
Arguments Many {V} vs.
Arguments ErrorLine {V} line.
Arguments LogValue {V} value.
Arguments LogAll {V} all.
Arguments SetConfig {V} key values.
Arguments GetConfig {V} key.
Arguments DeleteConfig {V} key.
Arguments ListConfig {V}.
Arguments config_get {V} key store.
Arguments config_set {V} key value store.
Arguments setConfig {V} key values store.
Arguments getConfig {V} key store.
Arguments deleteConfig {V} key store.
Arguments listConfig {V} store.
Arguments runCommand {V} cmd store.
Arguments session {V} cmds store.
Arguments isMany {V} v.
Arguments wellFormed {V} store.

(** What [config.get] answers for a key [check] reads as an array, and
    for one it reads as a string; nothing for a value of the other kind,
    which the commands never store under such a key. *)
Definition readArray (v : option (Stored string))
    : option (option (list string)) :=
  match v with
  | None => Some None
  | Some (Many l) => Some (Some l)
  | Some (One _) => None
  end.

Definition readString (v : option (Stored string))
    : option (option string) :=
  match v with
  | None => Some None
  | Some (One s) => Some (Some s)
  | Some (Many _) => None
  end.

(** The configuration as [check] reads it from the store. *)
Definition configOf (store : gmap string (Stored string)) : option Config :=
  match readArray (config_get "githubAuthors" store),
        readString (config_get "githubOrg" store),
        readString (config_get "cacheExpiry" store),
        readArray (config_get "allGithubRepos" store) with
  | Some a, Some o, Some c, Some r =>
      Some {| githubAuthors := a; githubOrg := o;
              cacheExpiry := c; allGithubRepos := r |}
  | _, _, _, _ => None
  end.

(** A word of the command line as the argument parser hands it to a
    command: the number it spells when it looks like one, and its text
    otherwise. *)
Inductive Word :=
| Text (s : string)
| Number (spelling : string).

Fixpoint texts (ws : list Word) : option (list string) :=
  match ws with
  | [] => Some []
  | Text s :: ws' =>
      match texts ws' with
      | Some l => Some (s :: l)
      | None => None
      end
  | Number _ :: _ => None
  end.

(** [readArray] and [readString] for a store of words: nothing either
    when a number is stored, for [check] works with strings. *)
Definition readTexts (v : option (Stored Word))
    : option (option (list string)) :=
  match v with
  | None => Some None
  | Some (Many ws) =>
      match texts ws with
      | Some l => Some (Some l)
      | None => None
      end
  | Some (One _) => None
  end.

Definition readText (v : option (Stored Word)) : option (option string) :=
  match v with
  | None => Some None
  | Some (One (Text s)) => Some (Some s)
  | Some (One (Number _)) | Some (Many _) => None
  end.

(** The configuration as [check] reads it from a store of words. *)
Definition configOfWords (store : gmap string (Stored Word))
    : option Config :=
  match readTexts (config_get "githubAuthors" store),
        readText (config_get "githubOrg" store),
        readText (config_get "cacheExpiry" store),
        readTexts (config_get "allGithubRepos" store) with
  | Some a, Some o, Some c, Some r =>
      Some {| githubAuthors := a; githubOrg := o;
              cacheExpiry := c; allGithubRepos := r |}
  | _, _, _, _ => None
  end.

(** ** Reading a line *)

(** The user and the repository a line is about. *)
Definition reportUser (r : Report) : string :=
  match r with
  | NoPulls u _ | NeedsReview u _ _ _ | Reviewed u _ _ => u
  end.

Definition reportRepo (r : Report) : string :=
  match r with
  | NoPulls _ repo | NeedsReview _ repo _ _ | Reviewed _ repo _ => repo
  end.

(** ** Running the pieces *)

Section ReconciliationFacts.

Variable getRepo : string → string → Z → Result (list PullData).
Variable getReviews : string → string → Z → Z → Result (list Review).

Lemma world_eta (w : World) : {| calls := calls w; logged := logged w |} = w.
Proof. by destruct w. Qed.

Lemma checkMissing_run repo users pulls w :
  checkMissing repo users pulls w
  = (inr tt, {| calls := calls w;
                logged := logged w ++ missing repo users pulls |}).
Proof.
  unfold checkMissing, missing.
  revert w; induction users as [|u users IH]; intros w; simpl.
  - unfold ret. by rewrite app_nil_r, world_eta.
  - unfold bind at 1. rewrite filter_cons.
    destruct (some_by pulls u) eqn:Hu; simpl.
    + by rewrite IH.
    + rewrite IH. simpl. by rewrite <- app_assoc.
Qed.

Lemma Promise_all_reviews_run org repo c pulls w :
  Promise_all (map (λ pr, github_getReviews getReviews org repo (id pr) c) pulls) w
  = (fetchedReviews getReviews org repo c pulls,
     {| calls := calls w ++ map (λ pr, GetReviews org repo (id pr) c) pulls;
        logged := logged w |}).
Proof.
  unfold fetchedReviews.
  revert w; induction pulls as [|pr pulls IH]; intros w; simpl.
  - unfold ret. by rewrite app_nil_r, world_eta.
  - unfold github_getReviews at 1, bind, request, settle. simpl.
    rewrite IH. simpl. rewrite <- app_assoc. simpl.
    by destruct (getReviews org repo (id pr) c).
Qed.

Lemma joined_inr {A} (rs : list (Result A)) l :
  joined rs = inr l → rs = map inr l.
Proof.
  revert l; induction rs as [|r rs IH]; intros l; simpl.
  - by intros [= <-].
  - destruct r as [e|a]; [done|].
    destruct (joined rs) as [e|l'] eqn:Hj; [done|].
    intros [= <-]. simpl. by rewrite (IH l').
Qed.

Lemma joined_map_inr {A} (l : list A) : joined (map inr l) = inr l.
Proof. induction l as [|a l IH]; simpl; [done|]. by rewrite IH. Qed.

Lemma joined_inl {A} (rs : list (Result A)) e :
  joined rs = inl e → inl e ∈ rs.
Proof.
  induction rs as [|r rs IH]; simpl; [done|].
  destruct r as [e'|a].
  - intros [= ->]. apply list_elem_of_here.
  - destruct (joined rs) as [e'|l'] eqn:Hj; [|done].
    intros [= ->]. apply list_elem_of_further. by apply IH.
Qed.

Lemma reportPull_verdict org repo pulls rs i pr reviews :
  pulls !! i = Some pr → rs !! i = Some reviews →
  reportPull org repo pulls rs i = sortedLog (verdict org repo pr reviews).
Proof.
  intros Hp Hr. unfold reportPull. rewrite Hp, Hr.
  by destruct reviews as [|review reviews].
Qed.

Lemma reportLoop_run org repo p1 r1 p2 r2 w :
  length p1 = length r1 → length p2 = length r2 →
  forOf (seq (length r1) (length r2))
        (reportPull org repo (p1 ++ p2) (r1 ++ r2)) w
  = (inr tt, {| calls := calls w;
                logged := logged w ++ zip_with (verdict org repo) p2 r2 |}).
Proof.
  revert p1 r1 p2 w; induction r2 as [|reviews r2 IH];
    intros p1 r1 p2 w H1 H2.
  - destruct p2; [|done]. simpl. unfold ret.
    by rewrite app_nil_r, world_eta.
  - destruct p2 as [|pr p2]; [done|]. simpl in H2.
    simpl. unfold bind at 1.
    rewrite (reportPull_verdict org repo _ _ _ pr reviews).
    + simpl.
      replace (p1 ++ pr :: p2) with ((p1 ++ [pr]) ++ p2)
        by (by rewrite <- app_assoc).
      replace (r1 ++ reviews :: r2) with ((r1 ++ [reviews]) ++ r2)
        by (by rewrite <- app_assoc).
      replace (S (length r1)) with (length (r1 ++ [reviews]))
        by (rewrite length_app; simpl; lia).
      rewrite IH; [|rewrite !length_app; simpl; lia|lia].
      simpl. by rewrite <- app_assoc.
    + rewrite lookup_app_r by lia. rewrite <- H1.
      by replace (length p1 - length p1)%nat with 0%nat by lia.
    + rewrite lookup_app_r by lia.
      by replace (length r1 - length r1)%nat with 0%nat by lia.
Qed.


Lemma _checkPRsForRepo_run org repo users c w :
  _checkPRsForRepo getRepo getReviews org repo users c w =
  match getRepo org repo c with
  | inl e =>
      (inl e, {| calls := calls w ++ [GetRepo org repo c];
                 logged := logged w |})
  | inr pullData =>
      let pulls := (selectPulls users (toPulls pullData)).1 in
      let users' := (selectPulls users (toPulls pullData)).2 in
      let calls' :=
        calls w ++ GetRepo org repo c
          :: map (λ pr, GetReviews org repo (id pr) c) pulls in
      let logged' := logged w ++ missing repo users' pulls in
      match fetchedReviews getReviews org repo c pulls with
      | inl e => (inl e, {| calls := calls'; logged := logged' |})
      | inr rs =>
          (inr tt, {| calls := calls';
                      logged := logged' ++ zip_with (verdict org repo) pulls rs |})
      end
  end.
Proof.
  unfold _checkPRsForRepo, github_getRepo.
  unfold bind at 1 2. unfold request, settle. simpl.
  destruct (getRepo org repo c) as [e|pullData]; [done|].
  fold (toPulls pullData).
  destruct (selectPulls users (toPulls pullData)) as [pulls users'] eqn:Hsel.
  simpl. unfold bind at 1. rewrite checkMissing_run.
  unfold bind at 1. rewrite Promise_all_reviews_run. simpl.
  rewrite <- app_assoc. simpl.
  destruct (fetchedReviews getReviews org repo c pulls) as [e|rs] eqn:Hrs;
    [done|].
  assert (Hlen : length pulls = length rs).
  { unfold fetchedReviews in Hrs. apply joined_inr in Hrs.
    apply (f_equal length) in Hrs. by rewrite !length_map in Hrs. }
  rewrite (reportLoop_run org repo [] [] pulls rs); done.
Qed.

End ReconciliationFacts.

(** ** One reconciliation, observed *)

Section ReconciliationClaims.

Variable getRepo : string → string → Z → Result (list PullData).
Variable getReviews : string → string → Z → Z → Result (list Review).

Lemma reports_run org repo users c :
  reports getRepo getReviews org repo users c =
  match getRepo org repo c with
  | inl _ => []
  | inr pullData =>
      let pulls := (selectPulls users (toPulls pullData)).1 in
      let users' := (selectPulls users (toPulls pullData)).2 in
      missing repo users' pulls ++
      match fetchedReviews getReviews org repo c pulls with
      | inl _ => []
      | inr rs => zip_with (verdict org repo) pulls rs
      end
  end.
Proof.
  unfold reports. rewrite _checkPRsForRepo_run.
  destruct (getRepo org repo c) as [e|pullData]; [done|]. simpl.
  destruct (fetchedReviews _ _ _ _ _) as [e|rs]; simpl;
    [by rewrite app_nil_r | done].
Qed.

Lemma outcome_run org repo users c :
  outcome getRepo getReviews org repo users c =
  match getRepo org repo c with
  | inl e => inl e
  | inr pullData =>
      match fetchedReviews getReviews org repo c
              (selectPulls users (toPulls pullData)).1 with
      | inl e => inl e
      | inr _ => inr tt
      end
  end.
Proof.
  unfold outcome. rewrite _checkPRsForRepo_run.
  destruct (getRepo org repo c) as [e|pullData]; [done|]. simpl.
  by destruct (fetchedReviews _ _ _ _ _).
Qed.

Lemma requests_run org repo users c :
  requests getRepo getReviews org repo users c =
  GetRepo org repo c ::
  match getRepo org repo c with
  | inl _ => []
  | inr pullData =>
      map (λ pr, GetReviews org repo (id pr) c)
          (selectPulls users (toPulls pullData)).1
  end.
Proof.
  unfold requests. rewrite _checkPRsForRepo_run.
  destruct (getRepo org repo c) as [e|pullData]; [done|]. simpl.
  by destruct (fetchedReviews _ _ _ _ _).
Qed.

(** A run from any world adds its own requests and lines to it. *)
Lemma _checkPRsForRepo_from org repo users c w :
  _checkPRsForRepo getRepo getReviews org repo users c w =
  (outcome getRepo getReviews org repo users c,
   {| calls := calls w ++ requests getRepo getReviews org repo users c;
      logged := logged w ++ reports getRepo getReviews org repo users c |}).
Proof.
  rewrite outcome_run, requests_run, reports_run, _checkPRsForRepo_run.
  destruct (getRepo org repo c) as [e|pullData].
  - by rewrite app_nil_r.
  - simpl. destruct (fetchedReviews _ _ _ _ _) as [e|rs]; simpl.
    + by rewrite app_nil_r.
    + by rewrite app_assoc.
Qed.

Lemma some_by_true pulls u :
  some_by pulls u = true ↔ ∃ pr, pr ∈ pulls ∧ user pr = u.
Proof.
  unfold some_by. rewrite existsb_exists. split.
  - intros (pr & Hin & Hu). exists pr. split; [by apply list_elem_of_In|].
    by apply bool_decide_eq_true in Hu.
  - intros (pr & Hin & Hu). exists pr. split; [by apply list_elem_of_In|].
    by apply bool_decide_eq_true.
Qed.

Lemma some_by_false pulls u :
  some_by pulls u = false ↔ ∀ pr, pr ∈ pulls → user pr ≠ u.
Proof.
  rewrite <- not_true_iff_false, some_by_true. split.
  - intros H pr Hin Hu. apply H. by exists pr.
  - intros H (pr & Hin & Hu). by apply (H pr).
Qed.

Lemma fetchedReviews_lookup org repo c pulls rs i pr :
  fetchedReviews getReviews org repo c pulls = inr rs →
  pulls !! i = Some pr →
  ∃ reviews, rs !! i = Some reviews
             ∧ getReviews org repo (id pr) c = inr reviews.
Proof.
  unfold fetchedReviews. intros Hj Hp. apply joined_inr in Hj.
  apply (f_equal (λ l, l !! i)) in Hj.
  rewrite !list_lookup_fmap, Hp in Hj. simpl in Hj.
  destruct (rs !! i) as [reviews|]; [|done].
  exists reviews. split; [done|]. by injection Hj.
Qed.

Lemma fetchedReviews_length org repo c pulls rs :
  fetchedReviews getReviews org repo c pulls = inr rs →
  length rs = length pulls.
Proof.
  unfold fetchedReviews. intros Hj. apply joined_inr in Hj.
  apply (f_equal length) in Hj. by rewrite !length_map in Hj.
Qed.

Lemma missing_only_NoPulls repo users pulls :
  filter (λ r, isNoPulls r = false) (missing repo users pulls) = [].
Proof.
  unfold missing.
  induction (filter (λ u, some_by pulls u = false) users) as [|u l IH];
    [done|].
  simpl. rewrite filter_cons. by simpl.
Qed.

Lemma verdicts_no_NoPulls org repo pulls rs :
  filter (λ r, isNoPulls r = false) (zip_with (verdict org repo) pulls rs)
  = zip_with (verdict org repo) pulls rs.
Proof.
  revert rs; induction pulls as [|pr pulls IH]; intros [|reviews rs];
    try done.
  simpl. rewrite filter_cons.
  destruct reviews; simpl; by rewrite IH.
Qed.


Lemma reviewLines_run org repo users c pullData rs :
  getRepo org repo c = inr pullData →
  fetchedReviews getReviews org repo c
    (selectPulls users (toPulls pullData)).1 = inr rs →
  reviewLines getRepo getReviews org repo users c
  = zip_with (verdict org repo) (selectPulls users (toPulls pullData)).1 rs.
Proof.
  intros Hrepo Hrs. unfold reviewLines.
  rewrite reports_run, Hrepo. simpl. rewrite Hrs.
  by rewrite filter_app, missing_only_NoPulls, verdicts_no_NoPulls.
Qed.

(** C3. When a reconciliation goes through, its review lines are one per
    selected pull request, in order; the line of a pull request whose
    reviews are empty is "needs review!", and the line of a pull request
    with reviews is "reviewed" with the state of the first review,
    whatever the reviews after it are. *)
Theorem first_review_decides_status org repo users c pullData i pr reviews :
  getRepo org repo c = inr pullData →
  outcome getRepo getReviews org repo users c = inr tt →
  (selectPulls users (toPulls pullData)).1 !! i = Some pr →
  getReviews org repo (id pr) c = inr reviews →
  length (reviewLines getRepo getReviews org repo users c)
    = length (selectPulls users (toPulls pullData)).1
  ∧ (reviews = [] →
     reviewLines getRepo getReviews org repo users c !! i
     = Some (NeedsReview (user pr) repo (prUrl org repo pr)
                         (cloneCmd repo pr)))
  ∧ (∀ first rest, reviews = first :: rest →
     reviewLines getRepo getReviews org repo users c !! i
     = Some (Reviewed (user pr) repo (state first))).
Proof.
  intros Hrepo Hok Hpr Hrev.
  rewrite outcome_run, Hrepo in Hok.
  destruct (fetchedReviews getReviews org repo c
              (selectPulls users (toPulls pullData)).1) as [e|rs] eqn:Hrs;
    [done|].
  rewrite (reviewLines_run _ _ _ _ _ _ Hrepo Hrs).
  destruct (fetchedReviews_lookup _ _ _ _ _ _ _ Hrs Hpr)
    as (reviews' & Hi & Hrev').
  rewrite Hrev in Hrev'. injection Hrev' as <-.
  split; [|split].
  - rewrite length_zip_with.
    pose proof (fetchedReviews_length _ _ _ _ _ Hrs). lia.
  - intros ->. by rewrite lookup_zip_with, Hpr, Hi.
  - intros first rest ->. by rewrite lookup_zip_with, Hpr, Hi.
Qed.

(** *** Counting lines *)

Lemma count_app {A} (p : A → bool) (l1 l2 : list A) :
  count p (l1 ++ l2) = (count p l1 + count p l2)%nat.
Proof. unfold count. by rewrite filter_app, length_app. Qed.

Lemma count_cons {A} (p : A → bool) (x : A) (l : list A) :
  count p (x :: l) = ((if p x then 1 else 0) + count p l)%nat.
Proof.
  unfold count. rewrite filter_cons.
  destruct (p x); [rewrite decide_True by done | rewrite decide_False by done];
    done.
Qed.

Lemma count_zero {A} (p : A → bool) (l : list A) :
  (∀ x, x ∈ l → p x = false) → count p l = 0%nat.
Proof.
  induction l as [|x l IH]; intros H; [done|].
  rewrite count_cons, (H x) by apply list_elem_of_here.
  rewrite IH; [done|]. intros y Hy. apply H. by apply list_elem_of_further.
Qed.

Lemma count_eq_NoDup (a : string) (l : list string) :
  NoDup l → a ∈ l → count (λ u, bool_decide (u = a)) l = 1%nat.
Proof.
  induction 1 as [|x l Hx Hnd IH]; intros Hin.
  - by apply not_elem_of_nil in Hin.
  - rewrite count_cons. apply elem_of_cons in Hin as [<-|Hin].
    + rewrite bool_decide_eq_true_2 by done.
      rewrite count_zero; [done|].
      intros y Hy. apply bool_decide_eq_false_2. by intros ->.
    + rewrite bool_decide_eq_false_2 by (by intros ->).
      by rewrite IH.
Qed.

Lemma count_missing_missing repo users pulls a :
  some_by pulls a = false →
  count (isMissingFor a) (missing repo users pulls)
  = count (λ u, bool_decide (u = a)) users.
Proof.
  intros Ha. unfold missing.
  induction users as [|u users IH]; [done|].
  rewrite filter_cons, (count_cons _ u).
  destruct (decide (u = a)) as [->|Hne].
  - rewrite decide_True by done. simpl. rewrite count_cons. simpl.
    rewrite !bool_decide_eq_true_2 by done. by rewrite IH.
  - rewrite (bool_decide_eq_false_2 (u = a)) by done.
    case_decide; [|done].
    simpl. rewrite count_cons. simpl.
    by rewrite bool_decide_eq_false_2 by done.
Qed.

Lemma count_review_missing repo users pulls a :
  count (isReviewFor a) (missing repo users pulls) = 0%nat.
Proof.
  apply count_zero. intros r Hr. unfold missing in Hr.
  apply list_elem_of_fmap in Hr as (u & -> & _). done.
Qed.

Lemma verdict_user org repo pr reviews a :
  isReviewFor a (verdict org repo pr reviews) = bool_decide (user pr = a)
  ∧ isMissingFor a (verdict org repo pr reviews) = false.
Proof. by destruct reviews. Qed.

Lemma verdicts_user org repo pulls rs r :
  r ∈ zip_with (verdict org repo) pulls rs →
  ∃ pr reviews, pr ∈ pulls ∧ r = verdict org repo pr reviews.
Proof.
  intros Hr. apply list_elem_of_lookup in Hr as [i Hi].
  rewrite lookup_zip_with in Hi.
  destruct (pulls !! i) as [pr|] eqn:Hp; [|done].
  destruct (rs !! i) as [reviews|] eqn:Hrv; [|done].
  simpl in Hi. injection Hi as <-.
  exists pr, reviews. split; [|done]. by eapply list_elem_of_lookup_2.
Qed.

Lemma count_missing_verdicts org repo pulls rs a :
  count (isMissingFor a) (zip_with (verdict org repo) pulls rs) = 0%nat.
Proof.
  apply count_zero. intros r Hr.
  apply verdicts_user in Hr as (pr & reviews & _ & ->).
  apply verdict_user.
Qed.

Lemma count_review_verdicts org repo pulls rs a :
  some_by pulls a = false →
  count (isReviewFor a) (zip_with (verdict org repo) pulls rs) = 0%nat.
Proof.
  intros Ha. apply count_zero. intros r Hr.
  apply verdicts_user in Hr as (pr & reviews & Hin & ->).
  destruct (verdict_user org repo pr reviews a) as [-> _].
  apply bool_decide_eq_false_2.
  by apply (proj1 (some_by_false pulls a) Ha).
Qed.

(** *** Selecting the pulls *)

Lemma selectPulls_explicit users pulls :
  _arrayIsWildcard users = false →
  selectPulls users pulls = (filter (λ pr, user pr ∈ users) pulls, users).
Proof. intros H. unfold selectPulls. by rewrite H. Qed.

Lemma selectPulls_wildcard users pulls :
  _arrayIsWildcard users = true →
  selectPulls users pulls = (pulls, arrDedupe (map user pulls)).
Proof. intros H. unfold selectPulls. by rewrite H. Qed.

Lemma toPulls_elem pullData pr :
  pr ∈ toPulls pullData ↔
  ∃ d, d ∈ pullData ∧ pr = {| id := number d; user := user_login d |}.
Proof.
  unfold toPulls. rewrite list_elem_of_fmap. split.
  - intros (d & -> & Hd). by exists d.
  - intros (d & Hd & ->). by exists d.
Qed.

Lemma arrDedupe_from_elem seen l x :
  x ∈ arrDedupe_from seen l ↔ x ∈ l ∧ x ∉ seen.
Proof.
  revert seen; induction l as [|y l IH]; intros seen; simpl.
  - split; [by intros ?%not_elem_of_nil | by intros [?%not_elem_of_nil _]].
  - case_bool_decide as Hy.
    + rewrite IH, elem_of_cons. split; [intros [? ?]; by auto|].
      intros [[->|?] Hn]; [done | by auto].
    + rewrite !elem_of_cons, IH, elem_of_cons. split.
      * intros [->|[? Hn]]; [by auto|]. split; [by auto|].
        intros ?. apply Hn. by right.
      * intros [[->|Hl] Hn]; [by left|].
        destruct (decide (x = y)) as [->|Hne]; [by left|].
        right. split; [done|]. by intros [?|?].
Qed.

Lemma arrDedupe_from_NoDup seen l : NoDup (arrDedupe_from seen l).
Proof.
  revert seen; induction l as [|y l IH]; intros seen; simpl.
  - constructor.
  - case_bool_decide as Hy; [by apply IH|].
    constructor; [|by apply IH].
    rewrite arrDedupe_from_elem. intros [_ Hn]. apply Hn.
    apply list_elem_of_here.
Qed.

Lemma arrDedupe_elem l x : x ∈ arrDedupe l ↔ x ∈ l.
Proof.
  unfold arrDedupe. rewrite arrDedupe_from_elem. split; [by intros [? _]|].
  intros ?. split; [done|]. apply not_elem_of_nil.
Qed.

Lemma missing_wildcard repo pulls :
  missing repo (arrDedupe (map user pulls)) pulls = [].
Proof.
  unfold missing.
  assert (H : filter (λ u, some_by pulls u = false)
                     (arrDedupe (map user pulls)) = []); [|by rewrite H].
  destruct (filter _ _) as [|u l] eqn:Hf; [done|].
  assert (Hu : u ∈ filter (λ u, some_by pulls u = false)
                          (arrDedupe (map user pulls)))
    by (rewrite Hf; apply list_elem_of_here).
  apply list_elem_of_filter in Hu as [Hno Hu].
  apply arrDedupe_elem, list_elem_of_fmap in Hu as (pr & -> & Hpr).
  apply not_true_iff_false in Hno. destruct Hno.
  apply some_by_true. by exists pr.
Qed.

(** *** Filters *)

Lemma filter_all {A} (P : A → Prop) `{∀ x, Decision (P x)} (l : list A) :
  (∀ x, x ∈ l → P x) → filter P l = l.
Proof.
  induction l as [|x l IH]; intros Hall; [done|].
  rewrite filter_cons_True by (apply Hall, list_elem_of_here).
  rewrite IH; [done|]. intros y Hy. apply Hall. by apply list_elem_of_further.
Qed.

Lemma filter_agree {A} (P Q : A → Prop)
    `{∀ x, Decision (P x)} `{∀ x, Decision (Q x)} (l : list A) :
  (∀ x, x ∈ l → P x ↔ Q x) → filter P l = filter Q l.
Proof.
  induction l as [|x l IH]; intros Hall; [done|].
  rewrite !filter_cons.
  rewrite IH by (intros y Hy; apply Hall; by apply list_elem_of_further).
  pose proof (Hall x (list_elem_of_here _ _)) as Hx.
  repeat case_decide; tauto.
Qed.

Lemma some_by_filter (users : list string) (pulls : list Pull) a :
  (∀ pr, pr ∈ pulls → user pr ≠ a) →
  some_by (filter (λ pr, user pr ∈ users) pulls) a = false.
Proof.
  intros H. apply some_by_false. intros pr Hpr.
  apply list_elem_of_filter in Hpr as [_ Hpr]. by apply H.
Qed.

(** C4, as the code has it. For an explicit author list and an author
    in it with no pull request among the fetched ones, a reconciliation
    whose pull-request list was fetched emits one "no pulls found" line
    for that author per occurrence of the author in the list, so exactly
    one when the list has no duplicate, and no "needs review!" or
    "reviewed" line for that author. *)
Theorem missing_author_per_occurrence org repo users c pullData a :
  _arrayIsWildcard users = false →
  a ∈ users →
  getRepo org repo c = inr pullData →
  (∀ d, d ∈ pullData → user_login d ≠ a) →
  count (isMissingFor a) (reports getRepo getReviews org repo users c)
    = count (λ u, bool_decide (u = a)) users
  ∧ (NoDup users →
     count (isMissingFor a) (reports getRepo getReviews org repo users c)
       = 1%nat)
  ∧ count (isReviewFor a) (reports getRepo getReviews org repo users c)
      = 0%nat.
Proof.
  intros Hw Hin Hrepo Hno.
  assert (Hsome : some_by (filter (λ pr, user pr ∈ users) (toPulls pullData))
                          a = false).
  { apply some_by_filter. intros pr Hpr.
    apply toPulls_elem in Hpr as (d & Hd & ->). simpl. by apply Hno. }
  assert (Hcount :
    count (isMissingFor a) (reports getRepo getReviews org repo users c)
    = count (λ u, bool_decide (u = a)) users).
  { rewrite reports_run, Hrepo. simpl.
    rewrite (selectPulls_explicit _ _ Hw). simpl.
    rewrite count_app, (count_missing_missing _ _ _ _ Hsome).
    destruct (fetchedReviews _ _ _ _ _) as [e|rs];
      [done | rewrite count_missing_verdicts; lia]. }
  split; [done|]. split.
  - intros Hnd. rewrite Hcount. by apply count_eq_NoDup.
  - rewrite reports_run, Hrepo. simpl.
    rewrite (selectPulls_explicit _ _ Hw). simpl.
    rewrite count_app, count_review_missing.
    destruct (fetchedReviews _ _ _ _ _) as [e|rs];
      [done | by rewrite count_review_verdicts].
Qed.

(** C5. Under the wildcard the pull requests are all kept, the users
    become the author logins of the fetched pull requests without
    duplicates, no "no pulls found" line is emitted, and a repository
    without pull requests yields no line at all. *)
Theorem wildcard_authors_from_pulls org repo users c pullData :
  _arrayIsWildcard users = true →
  getRepo org repo c = inr pullData →
  (selectPulls users (toPulls pullData)).1 = toPulls pullData
  ∧ NoDup (selectPulls users (toPulls pullData)).2
  ∧ (∀ a, a ∈ (selectPulls users (toPulls pullData)).2
          ↔ ∃ d, d ∈ pullData ∧ user_login d = a)
  ∧ count isNoPulls (reports getRepo getReviews org repo users c) = 0%nat
  ∧ (pullData = [] →
     reports getRepo getReviews org repo users c = []
     ∧ outcome getRepo getReviews org repo users c = inr tt).
Proof.
  intros Hw Hrepo. rewrite (selectPulls_wildcard _ _ Hw). simpl.
  split; [done|]. split; [apply arrDedupe_from_NoDup|]. split; [|split].
  - intros a. rewrite arrDedupe_elem, list_elem_of_fmap. split.
    + intros (pr & -> & Hpr). apply toPulls_elem in Hpr as (d & Hd & ->).
      by exists d.
    + intros (d & Hd & <-).
      exists {| id := number d; user := user_login d |}.
      split; [done|]. apply toPulls_elem. by exists d.
  - rewrite reports_run, Hrepo. simpl.
    rewrite (selectPulls_wildcard _ _ Hw). simpl.
    rewrite missing_wildcard. simpl.
    destruct (fetchedReviews _ _ _ _ _) as [e|rs]; [done|].
    apply count_zero. intros r Hr.
    apply verdicts_user in Hr as (pr & [|review reviews] & _ & ->); done.
  - intros ->. rewrite reports_run, outcome_run, Hrepo. simpl.
    by rewrite (selectPulls_wildcard _ _ Hw).
Qed.

Lemma count_isNoPulls_missing repo users pulls :
  count isNoPulls (missing repo users pulls)
  = length (missing repo users pulls).
Proof.
  unfold missing.
  induction (filter (λ u, some_by pulls u = false) users) as [|u l IH];
    [done|].
  simpl. by rewrite count_cons, IH.
Qed.

(** What a failed reconciliation has emitted: nothing when the
    pull-request list could not be fetched, and otherwise no review line,
    only the "no pulls found" lines, which precede the review fetches. *)
Lemma failed_run_reports org repo users c e :
  outcome getRepo getReviews org repo users c = inl e →
  (∀ e', getRepo org repo c = inl e' →
         reports getRepo getReviews org repo users c = [])
  ∧ reviewLines getRepo getReviews org repo users c = []
  ∧ count isNoPulls (reports getRepo getReviews org repo users c)
    = length (reports getRepo getReviews org repo users c).
Proof.
  intros Hfail. rewrite outcome_run in Hfail. split; [|split].
  - intros e' He'. by rewrite reports_run, He'.
  - unfold reviewLines. rewrite reports_run.
    destruct (getRepo org repo c) as [e'|pullData]; [done|].
    simpl in *. destruct (fetchedReviews _ _ _ _ _) as [e'|rs]; [|done].
    by rewrite app_nil_r, missing_only_NoPulls.
  - rewrite reports_run.
    destruct (getRepo org repo c) as [e'|pullData]; [done|].
    simpl in *. destruct (fetchedReviews _ _ _ _ _) as [e'|rs]; [|done].
    by rewrite app_nil_r, count_isNoPulls_missing.
Qed.

Lemma missing_explicit_lines repo (users : list string) pullData :
  missing repo users (filter (λ pr, user pr ∈ users) (toPulls pullData))
  = map (λ u, NoPulls u repo)
        (filter (λ u, Forall (λ d, user_login d ≠ u) pullData) users).
Proof.
  unfold missing. f_equal.
  apply filter_agree. intros u Hu. rewrite Forall_forall.
  rewrite some_by_false. split.
  - intros H d Hd Heq.
    apply (H {| id := number d; user := user_login d |}); [|done].
    apply list_elem_of_filter. split.
    + cbn [user]. subst u. exact Hu.
    + apply toPulls_elem. by exists d.
  - intros H pr Hpr Heq. apply list_elem_of_filter in Hpr as [_ Hpr].
    apply toPulls_elem in Hpr as (d & Hd & ->). cbn [user] in Heq.
    by apply (H d).
Qed.

(** The lines of a reconciliation that failed after its pull-request
    list was fetched: under the wildcard none, and for explicit authors
    one "no pulls found" line for each listed user without a fetched
    pull request, in the order of the list. *)
Lemma failed_run_lines org repo users c e pullData :
  outcome getRepo getReviews org repo users c = inl e →
  getRepo org repo c = inr pullData →
  reports getRepo getReviews org repo users c
  = if _arrayIsWildcard users then []
    else map (λ u, NoPulls u repo)
             (filter (λ u, Forall (λ d, user_login d ≠ u) pullData) users).
Proof.
  intros Hfail Hrepo. rewrite outcome_run, Hrepo in Hfail.
  rewrite reports_run, Hrepo. cbn zeta.
  destruct (fetchedReviews _ _ _ _ _) as [e'|rs]; [|done].
  rewrite app_nil_r.
  destruct (_arrayIsWildcard users) eqn:Hw.
  - rewrite (selectPulls_wildcard _ _ Hw). cbn [fst snd].
    apply missing_wildcard.
  - rewrite (selectPulls_explicit _ _ Hw). cbn [fst snd].
    apply missing_explicit_lines.
Qed.

(** C9. The wildcard test holds of the one-element list ['@'] and of no
    other list; a list that has '@' next to other entries is taken as it
    is: its '@' names a repository for the handler, and an author for the
    filter of [_checkPRsForRepo]. *)
Theorem wildcard_only_when_alone (config : Config) (x : list string) :
  (_arrayIsWildcard x = true ↔ x = ["@"])
  ∧ ("@" ∈ x → length x ≠ 1%nat →
     _arrayIsWildcard x = false
     ∧ resolveRepos config x = x
     ∧ ∀ pulls, selectPulls x pulls
                = (filter (λ pr, user pr ∈ x) pulls, x)).
Proof.
  assert (Hiff : _arrayIsWildcard x = true ↔ x = ["@"]).
  { unfold _arrayIsWildcard. rewrite andb_true_iff, !bool_decide_eq_true.
    split.
    - intros [Hlen H0]. destruct x as [|y [|z x]]; try done.
      simpl in H0. by injection H0 as ->.
    - by intros ->. }
  split; [done|]. intros _ Hlen.
  assert (Hf : _arrayIsWildcard x = false).
  { apply not_true_iff_false. rewrite Hiff. by intros ->. }
  split; [done|]. split.
  - unfold resolveRepos. by rewrite Hf.
  - intros pulls. by apply selectPulls_explicit.
Qed.

End ReconciliationClaims.

(** ** The limiter's bookkeeping *)

Section LimiterFacts.

Lemma count_nil {A} (p : A → bool) : count p [] = 0%nat.
Proof. done. Qed.

Lemma count_insert {A} (p : A → bool) (l : list A) i x y :
  l !! i = Some y →
  (count p (<[i := x]> l) + (if p y then 1 else 0)
   = count p l + (if p x then 1 else 0))%nat.
Proof.
  revert i; induction l as [|z l IH]; intros [|i] Hi; try done.
  - simpl in Hi. injection Hi as ->. simpl.
    rewrite !count_cons. lia.
  - simpl in Hi. simpl. rewrite !count_cons.
    specialize (IH i Hi). lia.
Qed.

Lemma count_pos {A} (p : A → bool) (l : list A) :
  (0 < count p l)%nat → ∃ i x, l !! i = Some x ∧ p x = true.
Proof.
  induction l as [|z l IH]; [rewrite count_nil; lia|].
  rewrite count_cons. destruct (p z) eqn:Hz.
  - intros _. by exists 0%nat, z.
  - intros H. destruct IH as (i & x & Hi & Hx); [simpl in H; lia|].
    by exists (S i), x.
Qed.

Lemma count_lookup_pos {A} (p : A → bool) (l : list A) i x :
  l !! i = Some x → p x = true → (0 < count p l)%nat.
Proof.
  revert i; induction l as [|z l IH]; intros [|i] Hi Hx; try done.
  - simpl in Hi. injection Hi as ->. rewrite count_cons, Hx. lia.
  - simpl in Hi. rewrite count_cons. specialize (IH i Hi Hx). lia.
Qed.

Lemma executing_run i b :
  promises b !! i = Some Queued →
  executing (run i b) = S (executing b).
Proof.
  intros Hi. unfold executing. simpl.
  pose proof (count_insert isRunning (promises b) i Running Queued Hi) as H.
  simpl in H. lia.
Qed.

Lemma unsettled_run i b :
  promises b !! i = Some Queued → unsettled (run i b) = unsettled b.
Proof.
  intros Hi. unfold unsettled. simpl.
  pose proof (count_insert (λ t, negb (isSettled t)) (promises b) i
                Running Queued Hi) as H.
  simpl in H. lia.
Qed.

Lemma Inv_pLimit k : (0 < k)%nat → Inv (pLimit k).
Proof.
  intros Hk. split; simpl; try done.
  - lia.
  - constructor.
  - intros i. split; [by intros ?%not_elem_of_nil | done].
Qed.

Lemma Inv_no_queued b :
  Inv b → queue b = [] → ∀ i, promises b !! i ≠ Some Queued.
Proof.
  intros HI Hq i Hi. apply (inv_queue b HI) in Hi.
  rewrite Hq in Hi. by apply not_elem_of_nil in Hi.
Qed.

Lemma Inv_limit fn b : Inv b → Inv (limit fn b).
Proof.
  intros HI. unfold limit, enqueue. simpl.
  pose proof (inv_cap b HI) as Hcap.
  case_bool_decide as Hlt.
  - (* admitted at once: nothing was waiting *)
    assert (Hq : queue b = []).
    { destruct (queue b) eqn:Hq; [done|].
      pose proof (inv_saturated b HI) as Hs. rewrite Hq in Hs.
      specialize (Hs ltac:(done)). lia. }
    assert (Hins : <[length (promises b) := Running]> (promises b ++ [Queued])
                   = promises b ++ [Running]).
    { rewrite insert_app_r_alt by lia.
      by replace (length (promises b) - length (promises b))%nat
        with 0%nat by lia. }
    split; unfold run; simpl; rewrite ?Hins.
    + rewrite !length_app. simpl. pose proof (inv_bodies b HI). lia.
    + unfold executing. simpl. rewrite ?Hins, count_app, count_cons.
      simpl. pose proof (inv_active b HI) as Ha. unfold executing in Ha.
      rewrite count_nil. lia.
    + lia.
    + apply (inv_pos b HI).
    + apply (inv_nodup b HI).
    + intros i. rewrite Hq. split; [by intros ?%not_elem_of_nil|].
      intros Hi. exfalso.
      destruct (decide (i < length (promises b))%nat) as [Hl|Hl].
      * rewrite lookup_app_l in Hi by done.
        by apply (Inv_no_queued b HI Hq i).
      * rewrite lookup_app_r in Hi by lia.
        destruct (i - length (promises b))%nat; done.
    + by rewrite Hq.
    + intros i r w Hi.
      destruct (decide (i < length (promises b))%nat) as [Hl|Hl].
      * rewrite lookup_app_l in Hi by done.
        destruct (inv_settled b HI i r w Hi) as (fn' & Hfn & Hrun).
        exists fn'. split; [|done]. by apply lookup_app_l_Some.
      * rewrite lookup_app_r in Hi by lia.
        destruct (i - length (promises b))%nat; done.
  - (* saturated: the task waits *)
    split; simpl.
    + rewrite !length_app. simpl. pose proof (inv_bodies b HI). lia.
    + unfold executing. simpl. rewrite count_app, count_cons. simpl.
      pose proof (inv_active b HI) as Ha. unfold executing in Ha.
      rewrite count_nil. lia.
    + done.
    + apply (inv_pos b HI).
    + apply NoDup_app. split; [apply (inv_nodup b HI)|]. split.
      * intros i Hi ->%list_elem_of_singleton.
        apply (inv_queue b HI) in Hi.
        apply lookup_lt_Some in Hi. lia.
      * apply NoDup_singleton.
    + intros i. rewrite elem_of_app, list_elem_of_singleton. split.
      * intros [Hi| ->].
        -- apply (inv_queue b HI) in Hi. by apply lookup_app_l_Some.
        -- rewrite lookup_app_r by lia.
           by replace (length (promises b) - length (promises b))%nat
             with 0%nat by lia.
      * intros Hi.
        destruct (decide (i < length (promises b))%nat) as [Hl|Hl].
        -- rewrite lookup_app_l in Hi by done. left.
           by apply (inv_queue b HI).
        -- right. apply lookup_lt_Some in Hi.
           rewrite length_app in Hi. simpl in Hi. lia.
    + intros _. lia.
    + intros i r w Hi.
      destruct (decide (i < length (promises b))%nat) as [Hl|Hl].
      * rewrite lookup_app_l in Hi by done.
        destruct (inv_settled b HI i r w Hi) as (fn' & Hfn & Hrun).
        exists fn'. split; [|done]. by apply lookup_app_l_Some.
      * rewrite lookup_app_r in Hi by lia.
        destruct (i - length (promises b))%nat; done.
Qed.

Lemma Inv_complete b i : Inv b → Inv (complete b i).
Proof.
  intros HI. unfold complete.
  destruct (promises b !! i) as [[| |r0 w0]|] eqn:Hi; try done.
  destruct (bodies b !! i) as [fn|] eqn:Hfn; [|done].
  destruct (fn start) as [r w] eqn:Hrun.
  pose proof (lookup_lt_Some _ _ _ Hi) as Hlt.
  pose proof (count_lookup_pos isRunning _ _ _ Hi eq_refl) as Hpos.
  pose proof (inv_active b HI) as Hact. unfold executing in Hact.
  pose proof (count_insert isRunning (promises b) i (Settled r w) Running Hi)
    as Hcnt. simpl in Hcnt.
  pose proof (inv_cap b HI) as Hcap.
  assert (Hset : ∀ k r' w',
    <[i := Settled r w]> (promises b) !! k = Some (Settled r' w') →
    ∃ fn', bodies b !! k = Some fn' ∧ fn' start = (r', w')).
  { intros k r' w' Hk. destruct (decide (i = k)) as [<-|Hne].
    - rewrite list_lookup_insert_eq in Hk by done.
      injection Hk as <- <-. by exists fn.
    - rewrite list_lookup_insert_ne in Hk by done.
      by apply (inv_settled b HI). }
  unfold next. simpl. destruct (queue b) as [|j q] eqn:Hq.
  - split; simpl.
    + rewrite length_insert. apply (inv_bodies b HI).
    + unfold executing. simpl. lia.
    + lia.
    + apply (inv_pos b HI).
    + constructor.
    + intros k. split; [by intros ?%not_elem_of_nil|]. intros Hk. exfalso.
      destruct (decide (i = k)) as [<-|Hne].
      * by rewrite list_lookup_insert_eq in Hk.
      * rewrite list_lookup_insert_ne in Hk by done.
        by apply (Inv_no_queued b HI Hq k).
    + done.
    + done.
  - assert (Hj : promises b !! j = Some Queued).
    { apply (inv_queue b HI). rewrite Hq. apply list_elem_of_here. }
    assert (Hij : i ≠ j) by (intros ->; congruence).
    assert (Hj' : <[i := Settled r w]> (promises b) !! j = Some Queued)
      by (by rewrite list_lookup_insert_ne).
    pose proof (count_insert isRunning _ j Running Queued Hj') as Hcnt'.
    simpl in Hcnt'.
    pose proof (inv_nodup b HI) as Hnd. rewrite Hq in Hnd.
    apply NoDup_cons in Hnd as [Hjq Hnd].
    split; unfold run; simpl.
    + rewrite !length_insert. apply (inv_bodies b HI).
    + unfold executing. simpl. lia.
    + lia.
    + apply (inv_pos b HI).
    + done.
    + intros k. destruct (decide (j = k)) as [<-|Hne].
      * rewrite list_lookup_insert_eq
          by (rewrite length_insert; by eapply lookup_lt_Some).
        split; [done|done].
      * rewrite list_lookup_insert_ne by done.
        destruct (decide (i = k)) as [<-|Hne'].
        -- rewrite list_lookup_insert_eq by done. split; [|done].
           intros Hk. assert (Hk' : i ∈ queue b)
             by (rewrite Hq; by apply list_elem_of_further).
           apply (inv_queue b HI) in Hk'. congruence.
        -- rewrite list_lookup_insert_ne by done.
           rewrite <- (inv_queue b HI k), Hq, elem_of_cons.
           split; [by right | by intros [->|?]].
    + intros _. pose proof (inv_saturated b HI) as Hs. rewrite Hq in Hs.
      specialize (Hs ltac:(done)). lia.
    + intros k r' w' Hk. destruct (decide (j = k)) as [<-|Hne].
      * rewrite list_lookup_insert_eq in Hk
          by (rewrite length_insert; by eapply lookup_lt_Some).
        done.
      * rewrite list_lookup_insert_ne in Hk by done. by apply Hset.
Qed.

Lemma Inv_exec b schedule : Inv b → Inv (exec b schedule).
Proof.
  unfold exec. revert b; induction schedule as [|i s IH]; intros b HI;
    [done|].
  simpl. apply IH. by apply Inv_complete.
Qed.

Lemma concurrency_limit fn b : concurrency (limit fn b) = concurrency b.
Proof. unfold limit, enqueue. simpl. by case_bool_decide. Qed.

Lemma bodies_limit fn b : bodies (limit fn b) = bodies b ++ [fn].
Proof. unfold limit, enqueue. simpl. by case_bool_decide. Qed.

Lemma concurrency_complete b i : concurrency (complete b i) = concurrency b.
Proof.
  unfold complete.
  destruct (promises b !! i) as [[| |r0 w0]|]; try done.
  destruct (bodies b !! i) as [fn|]; [|done].
  destruct (fn start) as [r w]. unfold next. simpl.
  by destruct (queue b).
Qed.

Lemma bodies_complete b i : bodies (complete b i) = bodies b.
Proof.
  unfold complete.
  destruct (promises b !! i) as [[| |r0 w0]|]; try done.
  destruct (bodies b !! i) as [fn|]; [|done].
  destruct (fn start) as [r w]. unfold next. simpl.
  by destruct (queue b).
Qed.

Lemma concurrency_exec b schedule :
  concurrency (exec b schedule) = concurrency b.
Proof.
  unfold exec. revert b; induction schedule as [|i s IH]; intros b; [done|].
  simpl. by rewrite IH, concurrency_complete.
Qed.

Lemma bodies_exec b schedule : bodies (exec b schedule) = bodies b.
Proof.
  unfold exec. revert b; induction schedule as [|i s IH]; intros b; [done|].
  simpl. by rewrite IH, bodies_complete.
Qed.

Lemma exec_app b s1 s2 : exec b (s1 ++ s2) = exec (exec b s1) s2.
Proof. unfold exec. apply fold_left_app. Qed.

(** While a promise is unsettled, some body is executing. *)
Lemma Inv_progress b :
  Inv b → (0 < unsettled b)%nat → ∃ i, promises b !! i = Some Running.
Proof.
  intros HI Hun. apply count_pos in Hun as (i & t & Hi & Ht).
  destruct t as [| |r w]; [|by exists i|done].
  assert (Hq : queue b ≠ []).
  { intros Hq. by apply (Inv_no_queued b HI Hq i). }
  pose proof (inv_saturated b HI Hq) as Hs.
  pose proof (inv_pos b HI) as Hp.
  pose proof (inv_active b HI) as Ha.
  destruct (count_pos isRunning (promises b)) as (k & t & Hk & Ht');
    [unfold executing in Ha; lia|].
  exists k. by destruct t.
Qed.

(** The completion of an executing body settles one more promise. *)
Lemma Inv_complete_unsettled b i :
  Inv b → promises b !! i = Some Running →
  S (unsettled (complete b i)) = unsettled b.
Proof.
  intros HI Hi. unfold complete. rewrite Hi.
  destruct (bodies b !! i) as [fn|] eqn:Hfn.
  2:{ apply lookup_ge_None in Hfn. apply lookup_lt_Some in Hi.
      pose proof (inv_bodies b HI). unfold Task in *. lia. }
  destruct (fn start) as [r w].
  pose proof (count_insert (λ t, negb (isSettled t)) (promises b) i
                (Settled r w) Running Hi) as Hcnt. simpl in Hcnt.
  unfold next. simpl. destruct (queue b) as [|j q] eqn:Hq.
  - unfold unsettled. simpl. lia.
  - assert (Hj : promises b !! j = Some Queued).
    { apply (inv_queue b HI). rewrite Hq. apply list_elem_of_here. }
    assert (Hij : i ≠ j) by (intros ->; congruence).
    rewrite unsettled_run by (simpl; by rewrite list_lookup_insert_ne).
    unfold unsettled. simpl. lia.
Qed.

(** From every batch the remaining bodies can all complete. *)
Lemma Inv_all_settle b :
  Inv b → ∃ schedule, length schedule = unsettled b
                      ∧ unsettled (exec b schedule) = 0%nat.
Proof.
  intros HI. remember (unsettled b) as n eqn:Hn. revert b HI Hn.
  induction n as [|n IH]; intros b HI Hn.
  - by exists [].
  - destruct (Inv_progress b HI) as [i Hi]; [lia|].
    pose proof (Inv_complete_unsettled b i HI Hi) as Hstep.
    destruct (IH (complete b i)) as (s & Hlen & Hs);
      [by apply Inv_complete | lia |].
    exists (i :: s). split; [simpl; lia | done].
Qed.

End LimiterFacts.

(** ** What a completion does to the other tasks, and the returned promise *)

Lemma complete_others b i :
  Inv b → promises b !! i = Some Running →
  (∀ j, j ≠ i → promises b !! j = Some Running →
        promises (complete b i) !! j = Some Running)
  ∧ (∀ j r w, promises b !! j = Some (Settled r w) →
              promises (complete b i) !! j = Some (Settled r w))
  ∧ (∀ j q, queue b = j :: q →
            promises (complete b i) !! j = Some Running
            ∧ queue (complete b i) = q).
Proof.
  intros HI Hi. unfold complete. rewrite Hi.
  destruct (bodies b !! i) as [fn|] eqn:Hfn.
  2:{ apply lookup_ge_None in Hfn. apply lookup_lt_Some in Hi.
      pose proof (inv_bodies b HI). unfold Task in *. lia. }
  destruct (fn start) as [r w]. unfold next. simpl.
  destruct (queue b) as [|k q'] eqn:Hq; simpl.
  - split; [|split]; [| |done].
    + intros j Hne Hj. by rewrite list_lookup_insert_ne.
    + intros j r' w' Hj. rewrite list_lookup_insert_ne; [done|].
      intros ->. congruence.
  - assert (Hk : promises b !! k = Some Queued).
    { apply (inv_queue b HI). rewrite Hq. apply list_elem_of_here. }
    split; [|split].
    + intros j Hne Hj.
      rewrite list_lookup_insert_ne by (intros ->; congruence).
      by rewrite list_lookup_insert_ne.
    + intros j r' w' Hj.
      rewrite list_lookup_insert_ne by (intros ->; congruence).
      rewrite list_lookup_insert_ne; [done|]. intros ->. congruence.
    + intros j q [= <- <-]. split; [|done].
      apply list_lookup_insert_eq. rewrite length_insert.
      by eapply lookup_lt_Some.
Qed.

Lemma returned_Fulfilled b :
  returned b = Fulfilled →
  unsettled b = 0%nat
  ∧ ∀ i t, promises b !! i = Some t → ∃ w, t = Settled (inr tt) w.
Proof.
  unfold returned, Promise_all_state.
  destruct (existsb isRejected _); [done|].
  destruct (forallb isFulfilled _) eqn:Hall; [|done]. intros _.
  rewrite forallb_forall in Hall.
  assert (H : ∀ i t, promises b !! i = Some t → ∃ w, t = Settled (inr tt) w).
  { intros i t Hi.
    assert (Hin : In (promiseOf t) (map promiseOf (promises b))).
    { apply in_map. apply list_elem_of_In. by eapply list_elem_of_lookup_2. }
    specialize (Hall _ Hin). destruct t as [| |[e|[]] w]; try done.
    by exists w. }
  split; [|done]. apply count_zero. intros t Ht.
  apply list_elem_of_lookup in Ht as [i Hi].
  by destruct (H i t Hi) as [w ->].
Qed.

Lemma returned_Rejected b :
  returned b = Rejected ↔
  ∃ i e w, promises b !! i = Some (Settled (inl e) w).
Proof.
  unfold returned, Promise_all_state. split.
  - destruct (existsb isRejected _) eqn:Hex.
    + intros _. apply existsb_exists in Hex as (p & Hin & Hp).
      apply in_map_iff in Hin as (t & <- & Hin).
      apply list_elem_of_In, list_elem_of_lookup in Hin as [i Hi].
      destruct t as [| |[e|u] w]; try done. by exists i, e, w.
    + by destruct (forallb isFulfilled _).
  - intros (i & e & w & Hi).
    assert (Hex : existsb isRejected (map promiseOf (promises b)) = true).
    { apply existsb_exists. exists Rejected. split; [|done].
      apply in_map_iff. exists (Settled (inl e) w). split; [done|].
      apply list_elem_of_In. by eapply list_elem_of_lookup_2. }
    by rewrite Hex.
Qed.

(** ** The [check] command *)

Section CheckFacts.

Variable chalk : Style → string → string.
Variable config : Config.
Variable parseDate : string → option Z.
Variable now : Z.
Variable months : Z.
Variable getRepo : string → string → Z → Result (list PullData).
Variable getReviews : string → string → Z → Z → Result (list Review).

Lemma limit_all_Inv (f : string → Task unit) repos b :
  Inv b → Inv (fold_left (λ b repo, limit (f repo) b) repos b).
Proof.
  revert b; induction repos as [|repo repos IH]; intros b HI; [done|].
  simpl. apply IH. by apply Inv_limit.
Qed.

Lemma limit_all_bodies (f : string → Task unit) repos b :
  bodies (fold_left (λ b repo, limit (f repo) b) repos b)
  = bodies b ++ map f repos.
Proof.
  revert b; induction repos as [|repo repos IH]; intros b; simpl.
  - by rewrite app_nil_r.
  - by rewrite IH, bodies_limit, <- app_assoc.
Qed.

Lemma limit_all_concurrency (f : string → Task unit) repos b :
  concurrency (fold_left (λ b repo, limit (f repo) b) repos b)
  = concurrency b.
Proof.
  revert b; induction repos as [|repo repos IH]; intros b; simpl; [done|].
  by rewrite IH, concurrency_limit.
Qed.

Lemma submitted_Inv opts repos :
  Inv (submitted getRepo getReviews opts repos).
Proof.
  unfold submitted. apply limit_all_Inv, Inv_pLimit.
  unfold MAX_CONCURRENT_REPO_CHECKS. lia.
Qed.

Lemma submitted_concurrency opts repos :
  concurrency (submitted getRepo getReviews opts repos)
  = MAX_CONCURRENT_REPO_CHECKS.
Proof. unfold submitted. by rewrite limit_all_concurrency. Qed.

Lemma handler_Inv opts : Inv (handler config getRepo getReviews opts).
Proof. apply submitted_Inv. Qed.

Lemma handler_bodies opts :
  bodies (handler config getRepo getReviews opts)
  = map (λ repo, _checkPRsForRepo getRepo getReviews (opts_org opts) repo
                   (opts_authors opts) (opts_maxCacheAge opts))
        (resolveRepos config (opts_repos opts)).
Proof. unfold handler, submitted. by rewrite limit_all_bodies. Qed.

Lemma handler_concurrency opts :
  concurrency (handler config getRepo getReviews opts)
  = MAX_CONCURRENT_REPO_CHECKS.
Proof. apply submitted_concurrency. Qed.

Lemma reached_Inv opts schedule :
  Inv (batchAfter config getRepo getReviews opts schedule).
Proof. apply Inv_exec, handler_Inv. Qed.

Lemma reached_length opts schedule :
  length (promises (batchAfter config getRepo getReviews opts schedule))
  = length (resolveRepos config (opts_repos opts)).
Proof.
  rewrite <- (inv_bodies _ (reached_Inv opts schedule)).
  unfold batchAfter. by rewrite bodies_exec, handler_bodies, length_map.
Qed.

(** A settled promise carries what its own repository's reconciliation
    does when run by itself. *)
Lemma reached_settled opts schedule i r w :
  promises (batchAfter config getRepo getReviews opts schedule) !! i
    = Some (Settled r w) →
  ∃ repo, resolveRepos config (opts_repos opts) !! i = Some repo
    ∧ r = outcome getRepo getReviews (opts_org opts) repo
            (opts_authors opts) (opts_maxCacheAge opts)
    ∧ logged w = reports getRepo getReviews (opts_org opts) repo
                   (opts_authors opts) (opts_maxCacheAge opts)
    ∧ calls w = requests getRepo getReviews (opts_org opts) repo
                  (opts_authors opts) (opts_maxCacheAge opts).
Proof.
  intros Hi.
  destruct (inv_settled _ (reached_Inv opts schedule) i r w Hi)
    as (fn & Hfn & Hrun).
  unfold batchAfter in Hfn.
  rewrite bodies_exec, handler_bodies, list_lookup_fmap in Hfn.
  destruct (resolveRepos config (opts_repos opts) !! i) as [repo|]; [|done].
  simpl in Hfn. injection Hfn as <-. exists repo. split; [done|].
  unfold outcome, reports, requests. by rewrite Hrun.
Qed.

(** C1. Whatever repositories are requested and in whatever order their
    bodies complete, at most five bodies are executing, while the
    repositories are being handed to the limiter as well as afterwards,
    and the batch has one promise per repository. The batch cannot stall
    either: while a promise is unsettled some body is executing, the
    completion of an executing body settles one more promise, and so the
    completions that remain, as many as there are unsettled promises,
    settle them all. *)
Theorem at_most_five_bodies_executing opts schedule b :
  b = batchAfter config getRepo getReviews opts schedule →
  (∀ k, (executing
           (submitted getRepo getReviews opts
              (take k (resolveRepos config (opts_repos opts)))) ≤ 5)%nat)
  ∧ length (promises b) = length (resolveRepos config (opts_repos opts))
  ∧ (executing b ≤ 5)%nat
  ∧ ((0 < unsettled b)%nat → ∃ i, promises b !! i = Some Running)
  ∧ (∀ i, promises b !! i = Some Running →
          S (unsettled (complete b i)) = unsettled b)
  ∧ ∃ rest, length rest = unsettled b
            ∧ unsettled (exec b rest) = 0%nat.
Proof.
  intros ->. pose proof (reached_Inv opts schedule) as HI.
  split.
  { intros k.
    pose proof (submitted_Inv opts
                  (take k (resolveRepos config (opts_repos opts)))) as Hk.
    rewrite <- (inv_active _ Hk).
    pose proof (inv_cap _ Hk) as Hcap.
    rewrite submitted_concurrency in Hcap.
    by unfold MAX_CONCURRENT_REPO_CHECKS in Hcap. }
  split; [apply reached_length|]. split; [|split; [|split]].
  - rewrite <- (inv_active _ HI).
    pose proof (inv_cap _ HI) as Hcap. unfold batchAfter in Hcap.
    rewrite concurrency_exec, handler_concurrency in Hcap.
    by unfold MAX_CONCURRENT_REPO_CHECKS in Hcap.
  - by apply Inv_progress.
  - intros i Hi. by apply Inv_complete_unsettled.
  - by apply Inv_all_settle.
Qed.

(** C2, as the code has it. The completion of a body, failed or not,
    leaves the executing siblings executing and the settled ones as they
    are, and admits the task at the head of the queue. The promise the
    handler returns is fulfilled only when every task has settled; it is
    rejected exactly when some task has been rejected, without waiting
    for the tasks still unsettled. Every settled task carries the outcome
    and the lines of its own repository, and the unsettled ones can all
    still settle. *)
Theorem failure_spares_siblings opts schedule b :
  b = batchAfter config getRepo getReviews opts schedule →
  (∀ i, promises b !! i = Some Running →
     (∀ j, j ≠ i → promises b !! j = Some Running →
           promises (complete b i) !! j = Some Running)
     ∧ (∀ j r w, promises b !! j = Some (Settled r w) →
                 promises (complete b i) !! j = Some (Settled r w))
     ∧ (∀ j q, queue b = j :: q →
               promises (complete b i) !! j = Some Running))
  ∧ (returned b = Fulfilled → unsettled b = 0%nat)
  ∧ (returned b = Rejected ↔
     ∃ i e w, promises b !! i = Some (Settled (inl e) w))
  ∧ (∀ i r w, promises b !! i = Some (Settled r w) →
       ∃ repo, resolveRepos config (opts_repos opts) !! i = Some repo
         ∧ r = outcome getRepo getReviews (opts_org opts) repo
                 (opts_authors opts) (opts_maxCacheAge opts)
         ∧ logged w = reports getRepo getReviews (opts_org opts) repo
                        (opts_authors opts) (opts_maxCacheAge opts))
  ∧ ∃ rest, unsettled (exec b rest) = 0%nat.
Proof.
  intros ->. pose proof (reached_Inv opts schedule) as HI.
  split; [|split; [|split; [|split]]].
  - intros i Hi.
    destruct (complete_others _ i HI Hi) as (Hrun & Hset & Hadm).
    split; [done|]. split; [done|]. intros j q Hq.
    by destruct (Hadm j q Hq).
  - intros H. by apply returned_Fulfilled.
  - apply returned_Rejected.
  - intros i r w Hi.
    destruct (reached_settled opts schedule i r w Hi)
      as (repo & Hrepo & Hr & Hl & _).
    by exists repo.
  - destruct (Inv_all_settle _ HI) as (rest & _ & Hrest). by exists rest.
Qed.

(** C8, as the code has it. A repository whose reconciliation failed has
    emitted nothing when its pull-request list could not be fetched; when
    a review fetch failed it has emitted no "needs review!" and no
    "reviewed" line, all its lines being "no pulls found" lines, and it
    has emitted these: for explicit authors one for each listed author
    without a fetched pull request, in the order of the list, and none
    under the wildcard. The other repositories carry the lines of their
    own reconciliation. *)
Theorem failed_repository_has_no_review_line opts schedule b i e w :
  b = batchAfter config getRepo getReviews opts schedule →
  promises b !! i = Some (Settled (inl e) w) →
  ∃ repo, resolveRepos config (opts_repos opts) !! i = Some repo
    ∧ (∀ e', getRepo (opts_org opts) repo (opts_maxCacheAge opts) = inl e' →
             logged w = [])
    ∧ filter (λ r, isNoPulls r = false) (logged w) = []
    ∧ count isNoPulls (logged w) = length (logged w)
    ∧ (∀ pullData,
         getRepo (opts_org opts) repo (opts_maxCacheAge opts)
           = inr pullData →
         logged w
         = if _arrayIsWildcard (opts_authors opts) then []
           else map (λ u, NoPulls u repo)
                    (filter (λ u, Forall (λ d, user_login d ≠ u) pullData)
                            (opts_authors opts)))
    ∧ ∀ j r' w', j ≠ i → promises b !! j = Some (Settled r' w') →
        ∃ repo', resolveRepos config (opts_repos opts) !! j = Some repo'
          ∧ logged w' = reports getRepo getReviews (opts_org opts) repo'
                          (opts_authors opts) (opts_maxCacheAge opts).
Proof.
  intros -> Hi.
  destruct (reached_settled opts schedule i _ w Hi)
    as (repo & Hrepo & Hr & Hl & _).
  exists repo. split; [done|].
  destruct (failed_run_reports getRepo getReviews _ _ _ _ e (eq_sym Hr))
    as (Hnone & Hrev & Hall).
  rewrite Hl. split; [done|]. split; [done|]. split; [done|].
  split.
  { intros pullData Hlist.
    by apply (failed_run_lines getRepo getReviews _ _ _ _ e). }
  intros j r' w' _ Hj.
  destruct (reached_settled opts schedule j r' w' Hj)
    as (repo' & Hrepo' & _ & Hl' & _).
  by exists repo'.
Qed.

(** C6. When the string given for [maxCacheAge] cannot be parsed, the
    options are rejected with 'Invalid maxCacheAge.' and the invocation
    ends with that error in place of a batch: the handler is not run, so
    no repository is submitted and no request is issued, whatever the
    repositories, the authors and the remote answers are. *)
Theorem invalid_maxCacheAge_is_fatal argv :
  parseDate (ageGiven config argv) = None →
  options chalk config parseDate now months argv
    = inl (JsError "Invalid maxCacheAge.")
  ∧ snd (check chalk config parseDate now months getRepo getReviews argv)
    = inl (JsError "Invalid maxCacheAge.").
Proof.
  intros Hparse.
  assert (Hopt : options chalk config parseDate now months argv
                 = inl (JsError "Invalid maxCacheAge.")).
  { unfold options, _negateDate. by rewrite Hparse. }
  split; [done|]. unfold check. simpl. by rewrite Hopt.
Qed.

Lemma requests_cutoff org repo users c call :
  call ∈ requests getRepo getReviews org repo users c → cutoffOf call = c.
Proof.
  rewrite requests_run. intros [->|Hin]%elem_of_cons; [done|].
  destruct (getRepo org repo c) as [e|pullData].
  - by apply not_elem_of_nil in Hin.
  - by apply list_elem_of_fmap in Hin as (pr & -> & _).
Qed.

(** C7, as the code has it. When the string given for [maxCacheAge]
    parses, the cutoff is [now - (parsed - now)], computed by the option's
    [coerce] before the handler runs; it lies in the past exactly when
    the parsed instant lies after now. The handler passes this one value
    to every repository's body, and every request a repository issues
    carries it. *)
Theorem cutoff_shared_by_all_repositories argv parsed :
  parseDate (ageGiven config argv) = Some parsed →
  ∃ opts,
    options chalk config parseDate now months argv = inr opts
    ∧ snd (check chalk config parseDate now months getRepo getReviews argv)
      = inr (handler config getRepo getReviews opts)
    ∧ opts_maxCacheAge opts = now - (parsed - now)
    ∧ (opts_maxCacheAge opts < now ↔ now < parsed)
    ∧ bodies (handler config getRepo getReviews opts)
      = map (λ repo, _checkPRsForRepo getRepo getReviews (opts_org opts) repo
                       (opts_authors opts) (now - (parsed - now)))
            (resolveRepos config (opts_repos opts))
    ∧ ∀ schedule i r w call,
        promises (batchAfter config getRepo getReviews opts schedule) !! i
          = Some (Settled r w) →
        call ∈ calls w →
        cutoffOf call = now - (parsed - now).
Proof.
  intros Hparse.
  assert (Hopt : ∃ opts,
    options chalk config parseDate now months argv = inr opts
    ∧ opts_maxCacheAge opts = now - (parsed - now)).
  { unfold options, _negateDate. rewrite Hparse. by eexists. }
  destruct Hopt as (opts & Hopt & Hcut). exists opts.
  split; [done|]. split; [unfold check; simpl; by rewrite Hopt|].
  split; [done|]. split; [lia|]. split.
  - by rewrite handler_bodies, Hcut.
  - intros schedule i r w call Hi Hcall.
    destruct (reached_settled opts schedule i r w Hi)
      as (repo & _ & _ & _ & Hcalls).
    rewrite Hcalls in Hcall. apply requests_cutoff in Hcall.
    by rewrite Hcall.
Qed.

(** C10. The cohort is the floor of the months elapsed since 2013-06-01
    divided by six. Without a configured [githubOrg] the default of the
    [org] option is 'Ada-C' followed by the cohort, nothing is printed,
    and an invocation that gives no [--org] runs with that name. With a
    configured name that starts with 'Ada-C' and differs from the computed
    one, the two warning lines are printed and the configured name is
    the default. *)
Theorem org_defaults_to_cohort :
  (6 * (months / 6) ≤ months < 6 * (months / 6) + 6)
  ∧ (githubOrg config = None →
     orgDefault chalk config months = ([], "Ada-C" +:+ pretty (months / 6))
     ∧ ∀ argv opts,
         org argv = None →
         options chalk config parseDate now months argv = inr opts →
         opts_org opts = "Ada-C" +:+ pretty (months / 6))
  ∧ (∀ cfgOrg,
       githubOrg config = Some cfgOrg →
       String.prefix "Ada-C" cfgOrg = true →
       cfgOrg ≠ "Ada-C" +:+ pretty (months / 6) →
       orgDefault chalk config months
       = ([chalk red_bold "WARN GitHub org name may be outdated!";
           chalk red_bold (TAB +:+ cfgOrg +:+ " --> "
                             +:+ "Ada-C" +:+ pretty (months / 6))],
          cfgOrg)).
Proof.
  split; [|split].
  - pose proof (Z.div_mod months 6 ltac:(lia)) as Hdm.
    pose proof (Z.mod_pos_bound months 6 ltac:(lia)). lia.
  - intros Hnone.
    assert (Hdef : orgDefault chalk config months
                   = ([], "Ada-C" +:+ pretty (months / 6)))
      by (unfold orgDefault; by rewrite Hnone).
    split; [done|]. intros argv opts Horg Hopt.
    unfold options in Hopt.
    destruct (_negateDate parseDate now (ageGiven config argv)); [done|].
    injection Hopt as <-. cbn [opts_org]. by rewrite Horg, Hnone.
  - intros cfgOrg Hcfg Hpre Hne. unfold orgDefault. rewrite Hcfg, Hpre.
    assert (Hnonempty : cfgOrg ≠ "") by (by intros ->).
    rewrite (bool_decide_eq_false_2 _ Hnonempty).
    rewrite (bool_decide_eq_false_2 _ Hne). simpl.
    by rewrite (bool_decide_eq_false_2 _ Hnonempty).
Qed.

End CheckFacts.

(** ** The program and the theorems at work in the small world *)

(** The two scenarios of the specification. *)
Example widgets_alice_and_bob :
  _checkPRsForRepo Scenario.getRepo Scenario.getReviews "Ada-C16" "widgets"
    ["alice"; "bob"] 0 start
  = (inr tt,
     {| calls := [GetRepo "Ada-C16" "widgets" 0;
                  GetReviews "Ada-C16" "widgets" 1 0];
        logged :=
          [NoPulls "bob" "widgets";
           NeedsReview "alice" "widgets"
             "https://github.com/Ada-C16/widgets/pull/1/changes"
             "git clone https://github.com/alice/widgets alice/widgets"] |}).
Proof. reflexivity. Qed.

Example gadgets_wildcard :
  reports Scenario.getRepo Scenario.getReviews "Ada-C16" "gadgets" ["@"] 0
  = [Reviewed "carol" "gadgets" "APPROVED"].
Proof. reflexivity. Qed.

Example needs_review_text :
  render plain (NeedsReview "alice" "widgets" "URL" "CMD")
  = "alice -> widgets: needs review!" +:+ LF +:+ TAB +:+ "URL"
      +:+ LF +:+ TAB +:+ "CMD" +:+ LF.
Proof. reflexivity. Qed.

(** Seven repositories: five bodies start at once and two wait, in the
    order they were given; a completion admits the first of them. *)
Example seven_repositories :
  promises (handler Scenario.config Scenario.getRepo Scenario.getReviews
              (Scenario.optsFor ["a"; "b"; "c"; "d"; "e"; "f"; "g"]))
    = [Running; Running; Running; Running; Running; Queued; Queued]
  ∧ queue (handler Scenario.config Scenario.getRepo Scenario.getReviews
             (Scenario.optsFor ["a"; "b"; "c"; "d"; "e"; "f"; "g"]))
    = [5; 6]%nat
  ∧ queue (batchAfter Scenario.config Scenario.getRepo Scenario.getReviews
             (Scenario.optsFor ["a"; "b"; "c"; "d"; "e"; "f"; "g"])
             [2%nat])
    = [6%nat]
  ∧ executing
      (batchAfter Scenario.config Scenario.getRepo Scenario.getReviews
         (Scenario.optsFor ["a"; "b"; "c"; "d"; "e"; "f"; "g"]) [2%nat])
    = 5%nat.
Proof. by vm_compute. Qed.

Lemma at_most_five_bodies_executing_witness :
  (executing
     (batchAfter Scenario.config Scenario.getRepo Scenario.getReviews
        (Scenario.optsFor ["a"; "b"; "c"; "d"; "e"; "f"; "g"]) [0; 1]%nat)
   ≤ 5)%nat.
Proof.
  destruct (at_most_five_bodies_executing Scenario.config Scenario.getRepo
              Scenario.getReviews
              (Scenario.optsFor ["a"; "b"; "c"; "d"; "e"; "f"; "g"])
              [0; 1]%nat _ eq_refl)
    as (_ & _ & Hcap & _).
  exact Hcap.
Defined.

Lemma failure_spares_siblings_witness :
  promises
    (complete
       (batchAfter Scenario.config Scenario.getRepo Scenario.getReviews
          (Scenario.optsFor ["down"; "widgets"]) [])
       0%nat) !! 1%nat = Some Running.
Proof.
  destruct (failure_spares_siblings Scenario.config Scenario.getRepo
              Scenario.getReviews (Scenario.optsFor ["down"; "widgets"]) []
              _ eq_refl)
    as (Hothers & _).
  destruct (Hothers 0%nat) as (Hrun & _); [reflexivity|].
  apply Hrun; [lia | reflexivity].
Defined.

(** C2 as stated fails: with two repositories of which the first cannot be
    fetched, the promise the handler returns is rejected as soon as the
    first body fails, while the second body is still executing. *)
Lemma returned_before_all_settled :
  returned
    (batchAfter Scenario.config Scenario.getRepo Scenario.getReviews
       (Scenario.optsFor ["down"; "widgets"]) [0%nat]) = Rejected
  ∧ promises
      (batchAfter Scenario.config Scenario.getRepo Scenario.getReviews
         (Scenario.optsFor ["down"; "widgets"]) [0%nat]) !! 1%nat
    = Some Running
  ∧ unsettled
      (batchAfter Scenario.config Scenario.getRepo Scenario.getReviews
         (Scenario.optsFor ["down"; "widgets"]) [0%nat]) = 1%nat.
Proof. by vm_compute. Qed.

Lemma first_review_decides_status_witness :
  reviewLines Scenario.getRepo Scenario.getReviews "Ada-C16" "gadgets" ["@"] 0
    !! 0%nat = Some (Reviewed "carol" "gadgets" "APPROVED")
  ∧ reviewLines Scenario.getRepo Scenario.getReviews "Ada-C16" "widgets"
      ["@"] 0 !! 0%nat
    = Some (NeedsReview "alice" "widgets"
              "https://github.com/Ada-C16/widgets/pull/1/changes"
              "git clone https://github.com/alice/widgets alice/widgets").
Proof.
  split.
  - destruct (first_review_decides_status Scenario.getRepo Scenario.getReviews
                "Ada-C16" "gadgets" ["@"] 0
                [{| number := 2; user_login := "carol" |}] 0%nat
                {| id := 2; user := "carol" |}
                [{| state := "APPROVED" |}; {| state := "CHANGES_REQUESTED" |}])
      as (_ & _ & Hfirst); [reflexivity..|].
    apply (Hfirst {| state := "APPROVED" |} [{| state := "CHANGES_REQUESTED" |}]).
    reflexivity.
  - destruct (first_review_decides_status Scenario.getRepo Scenario.getReviews
                "Ada-C16" "widgets" ["@"] 0
                [{| number := 1; user_login := "alice" |}] 0%nat
                {| id := 1; user := "alice" |} [])
      as (_ & Hnone & _); [reflexivity..|].
    apply Hnone. reflexivity.
Defined.

Lemma missing_author_per_occurrence_witness :
  count (isMissingFor "bob")
        (reports Scenario.getRepo Scenario.getReviews "Ada-C16" "widgets"
                 ["alice"; "bob"] 0) = 1%nat
  ∧ count (isReviewFor "bob")
          (reports Scenario.getRepo Scenario.getReviews "Ada-C16" "widgets"
                   ["alice"; "bob"] 0) = 0%nat.
Proof.
  destruct (missing_author_per_occurrence Scenario.getRepo Scenario.getReviews
              "Ada-C16" "widgets" ["alice"; "bob"] 0
              [{| number := 1; user_login := "alice" |}] "bob")
    as (_ & Hone & Hnone).
  - reflexivity.
  - apply list_elem_of_further, list_elem_of_here.
  - reflexivity.
  - intros d ->%list_elem_of_singleton. simpl. discriminate.
  - split; [|exact Hnone]. apply Hone.
    apply (bool_decide_unpack _). by vm_compute.
Defined.

(** C4 as stated fails: an author given twice and without a pull request
    gets two "no pulls found" lines, for the explicit list is not
    deduplicated. *)
Lemma duplicate_author_reported_twice :
  _arrayIsWildcard ["bob"; "bob"] = false
  ∧ Scenario.getRepo "Ada-C16" "widgets" 0
    = inr [{| number := 1; user_login := "alice" |}]
  ∧ reports Scenario.getRepo Scenario.getReviews "Ada-C16" "widgets"
            ["bob"; "bob"] 0
    = [NoPulls "bob" "widgets"; NoPulls "bob" "widgets"]
  ∧ count (isMissingFor "bob")
          (reports Scenario.getRepo Scenario.getReviews "Ada-C16" "widgets"
                   ["bob"; "bob"] 0) = 2%nat.
Proof. by vm_compute. Qed.

Lemma wildcard_authors_from_pulls_witness :
  (selectPulls ["@"] (toPulls [{| number := 2; user_login := "carol" |}])).2
    = ["carol"]
  ∧ count isNoPulls
          (reports Scenario.getRepo Scenario.getReviews "Ada-C16" "gadgets"
                   ["@"] 0) = 0%nat
  ∧ reports Scenario.getRepo Scenario.getReviews "Ada-C16" "empty" ["@"] 0
    = [].
Proof.
  split; [reflexivity|]. split.
  - destruct (wildcard_authors_from_pulls Scenario.getRepo Scenario.getReviews
                "Ada-C16" "gadgets" ["@"] 0
                [{| number := 2; user_login := "carol" |}])
      as (_ & _ & _ & Hnone & _); [reflexivity..|].
    exact Hnone.
  - destruct (wildcard_authors_from_pulls Scenario.getRepo Scenario.getReviews
                "Ada-C16" "empty" ["@"] 0 [])
      as (_ & _ & _ & _ & Hempty); [reflexivity..|].
    by destruct (Hempty eq_refl).
Defined.

Lemma invalid_maxCacheAge_is_fatal_witness :
  snd (check plain Scenario.config Scenario.parseDate Scenario.now
         Scenario.months Scenario.getRepo Scenario.getReviews
         (Scenario.argvFor (Some "soonish")))
  = inl (JsError "Invalid maxCacheAge.").
Proof.
  destruct (invalid_maxCacheAge_is_fatal plain Scenario.config
              Scenario.parseDate Scenario.now Scenario.months
              Scenario.getRepo Scenario.getReviews
              (Scenario.argvFor (Some "soonish")))
    as (_ & Hcheck); [reflexivity|].
  exact Hcheck.
Defined.

Lemma cutoff_shared_by_all_repositories_witness :
  ∃ opts,
    options plain Scenario.config Scenario.parseDate Scenario.now
      Scenario.months (Scenario.argvFor None) = inr opts
    ∧ opts_maxCacheAge opts = Scenario.now - 3600000.
Proof.
  destruct (cutoff_shared_by_all_repositories plain Scenario.config
              Scenario.parseDate Scenario.now Scenario.months
              Scenario.getRepo Scenario.getReviews (Scenario.argvFor None)
              (Scenario.now + 3600000))
    as (opts & Hopt & _ & Hcut & _); [reflexivity|].
  exists opts. split; [exact Hopt|]. rewrite Hcut. reflexivity.
Defined.

(** C7 as stated fails: an expression that resolves to an instant before
    now gives a cutoff after now. *)
Lemma cutoff_in_the_future :
  options plain Scenario.config Scenario.parseDate Scenario.now
    Scenario.months (Scenario.argvFor (Some "yesterday"))
  = inr {| opts_repos := ["widgets"]; opts_authors := ["alice"; "bob"];
           opts_org := "Ada-C3"; opts_maxCacheAge := 1700086400000 |}
  ∧ Scenario.now < 1700086400000.
Proof. by vm_compute. Qed.

Lemma failed_repository_has_no_review_line_witness :
  ∃ repo,
    resolveRepos Scenario.config ["flaky"; "widgets"] !! 0%nat = Some repo
    ∧ filter (λ r, isNoPulls r = false) [NoPulls "bob" "flaky"] = []
    ∧ [NoPulls "bob" "flaky"]
      = map (λ u, NoPulls u "flaky")
            (filter (λ u, Forall (λ d, user_login d ≠ u)
                            [{| number := 3; user_login := "alice" |}])
                    ["alice"; "bob"]).
Proof.
  destruct (failed_repository_has_no_review_line Scenario.config
              Scenario.getRepo Scenario.getReviews
              (Scenario.optsFor ["flaky"; "widgets"]) [0; 1]%nat _ 0%nat
              FetchError
              {| calls := [GetRepo "Ada-C16" "flaky" (Scenario.now - 3600000);
                           GetReviews "Ada-C16" "flaky" 3
                             (Scenario.now - 3600000)];
                 logged := [NoPulls "bob" "flaky"] |} eq_refl)
    as (repo & Hrepo & _ & Hrev & _ & Hlines & _); [reflexivity|].
  exists repo. split; [exact Hrepo|]. split; [exact Hrev|].
  assert (Hflaky : repo = "flaky").
  { change (Some "flaky" = Some repo) in Hrepo. by injection Hrepo. }
  subst repo.
  apply (Hlines [{| number := 3; user_login := "alice" |}]). reflexivity.
Defined.

(** C8 as stated fails: when a review fetch is rejected, the repository
    has already emitted the "no pulls found" line of an author without a
    pull request. *)
Lemma failed_repository_partial_output :
  outcome Scenario.getRepo Scenario.getReviews "Ada-C16" "flaky"
          ["alice"; "bob"] 0 = inl FetchError
  ∧ reports Scenario.getRepo Scenario.getReviews "Ada-C16" "flaky"
            ["alice"; "bob"] 0 = [NoPulls "bob" "flaky"].
Proof. by vm_compute. Qed.

Lemma wildcard_only_when_alone_witness :
  _arrayIsWildcard ["@"; "x"] = false
  ∧ resolveRepos Scenario.config ["@"; "x"] = ["@"; "x"].
Proof.
  destruct (wildcard_only_when_alone Scenario.config ["@"; "x"])
    as (_ & Hlit).
  destruct Hlit as (Hno & Hrepos & _).
  - apply list_elem_of_here.
  - simpl. lia.
  - split; [exact Hno | exact Hrepos].
Defined.

Lemma org_defaults_to_cohort_witness :
  orgDefault plain Scenario.unset Scenario.months = ([], "Ada-C16")
  ∧ orgDefault plain Scenario.config Scenario.months
    = (["WARN GitHub org name may be outdated!";
        TAB +:+ "Ada-C3 --> Ada-C16"], "Ada-C3").
Proof.
  split.
  - destruct (org_defaults_to_cohort plain Scenario.unset Scenario.parseDate
                Scenario.now Scenario.months) as (_ & Hunset & _).
    destruct Hunset as (Hdef & _); [reflexivity|]. exact Hdef.
  - destruct (org_defaults_to_cohort plain Scenario.config Scenario.parseDate
                Scenario.now Scenario.months) as (_ & _ & Hset).
    apply (Hset "Ada-C3"); [reflexivity | reflexivity | discriminate].
Defined.

(** ** The configuration commands *)

Section ConfigFacts.

Context {V : Type}.

Lemma validate_supported key :
  key ∈ SUPPORTED_KEYS → _validateConfigKey key = ([], true).
Proof.
  intros H. unfold _validateConfigKey.
  by rewrite (bool_decide_eq_true_2 _ H).
Qed.

Lemma validate_unsupported key :
  key ∉ SUPPORTED_KEYS →
  _validateConfigKey key
  = ("Unknown key name! Supported values are:"
       :: map (λ supportedKey, "- " +:+ supportedKey) SUPPORTED_KEYS,
     false).
Proof.
  intros H. unfold _validateConfigKey.
  by rewrite (bool_decide_eq_false_2 _ H).
Qed.

Lemma setConfig_supported key (values : list V) store :
  key ∈ SUPPORTED_KEYS →
  setConfig key values store
  = ([], config_set key
           (if negb (_configKeyIsArray key) then One <$> values !! 0%nat
            else Some (Many values)) store).
Proof. intros H. unfold setConfig. by rewrite (validate_supported _ H). Qed.

Lemma deleteConfig_supported key (store : gmap string (Stored V)) :
  key ∈ SUPPORTED_KEYS →
  deleteConfig key store = ([], config_set key None store).
Proof.
  intros H. unfold deleteConfig. by rewrite (validate_supported _ H).
Qed.

Lemma setConfig_unsupported key (values : list V) store :
  key ∉ SUPPORTED_KEYS →
  setConfig key values store
  = (map ErrorLine
       ("Unknown key name! Supported values are:"
          :: map (λ supportedKey, "- " +:+ supportedKey) SUPPORTED_KEYS),
     store).
Proof.
  intros H. unfold setConfig. by rewrite (validate_unsupported _ H).
Qed.

Lemma deleteConfig_unsupported key (store : gmap string (Stored V)) :
  key ∉ SUPPORTED_KEYS →
  deleteConfig key store
  = (map ErrorLine
       ("Unknown key name! Supported values are:"
          :: map (λ supportedKey, "- " +:+ supportedKey) SUPPORTED_KEYS),
     store).
Proof.
  intros H. unfold deleteConfig. by rewrite (validate_unsupported _ H).
Qed.

Lemma config_set_lookup_ne key key' value (store : gmap string (Stored V)) :
  key' ≠ key → config_set key value store !! key' = store !! key'.
Proof.
  intros H. unfold config_set. destruct value.
  - by rewrite lookup_insert_ne.
  - by rewrite lookup_delete_ne.
Qed.

Lemma config_set_lookup_eq key value (store : gmap string (Stored V)) :
  config_set key value store !! key = value.
Proof.
  unfold config_set. destruct value.
  - by rewrite lookup_insert_eq.
  - by rewrite lookup_delete_eq.
Qed.

Lemma config_set_twice key v1 v2 (store : gmap string (Stored V)) :
  config_set key v2 (config_set key v1 store) = config_set key v2 store.
Proof.
  unfold config_set. destruct v1, v2.
  - apply insert_insert_eq.
  - apply delete_insert_eq.
  - apply insert_delete_eq.
  - apply delete_delete_eq.
Qed.

Lemma config_set_commute key key' v v' (store : gmap string (Stored V)) :
  key ≠ key' →
  config_set key v (config_set key' v' store)
  = config_set key' v' (config_set key v store).
Proof.
  intros H. unfold config_set. destruct v, v'.
  - by apply insert_insert_ne.
  - by rewrite insert_delete_ne.
  - by rewrite delete_insert_ne.
  - apply delete_delete.
Qed.

(** The store after a command, by cases on the key. *)
Lemma setConfig_store key (values : list V) store :
  snd (setConfig key values store)
  = if decide (key ∈ SUPPORTED_KEYS)
    then config_set key
           (if negb (_configKeyIsArray key) then One <$> values !! 0%nat
            else Some (Many values)) store
    else store.
Proof.
  case_decide as H.
  - by rewrite (setConfig_supported _ _ _ H).
  - by rewrite (setConfig_unsupported _ _ _ H).
Qed.

Lemma deleteConfig_store key (store : gmap string (Stored V)) :
  snd (deleteConfig key store)
  = if decide (key ∈ SUPPORTED_KEYS) then config_set key None store
    else store.
Proof.
  case_decide as H.
  - by rewrite (deleteConfig_supported _ _ H).
  - by rewrite (deleteConfig_unsupported _ _ H).
Qed.

(** X1. [setConfig] and [deleteConfig] print exactly when the key is not a
    supported one; they then leave the store as it is and print the same
    lines, which name every supported key. *)
Theorem unsupported_key_changes_nothing key (values : list V) store :
  (fst (setConfig key values store) = [] ↔ key ∈ SUPPORTED_KEYS)
  ∧ (fst (deleteConfig key store) = [] ↔ key ∈ SUPPORTED_KEYS)
  ∧ (key ∉ SUPPORTED_KEYS →
     snd (setConfig key values store) = store
     ∧ snd (deleteConfig key store) = store
     ∧ fst (setConfig key values store) = fst (deleteConfig key store)
     ∧ length (fst (setConfig key values store)) = 6%nat
     ∧ (∀ supportedKey, supportedKey ∈ SUPPORTED_KEYS →
          ErrorLine ("- " +:+ supportedKey)
            ∈ fst (setConfig key values store))
     ∧ fst (setConfig key values store)
       = map ErrorLine
           ("Unknown key name! Supported values are:"
              :: map (λ supportedKey, "- " +:+ supportedKey)
                     SUPPORTED_KEYS)).
Proof.
  split; [|split].
  - destruct (decide (key ∈ SUPPORTED_KEYS)) as [H|H].
    + by rewrite (setConfig_supported _ _ _ H).
    + by rewrite (setConfig_unsupported _ _ _ H).
  - destruct (decide (key ∈ SUPPORTED_KEYS)) as [H|H].
    + by rewrite (deleteConfig_supported _ _ H).
    + by rewrite (deleteConfig_unsupported _ _ H).
  - intros H.
    rewrite (setConfig_unsupported _ _ _ H), (deleteConfig_unsupported _ _ H).
    cbn [fst snd]. repeat split; try done.
    intros k Hk. apply (list_elem_of_fmap_2 ErrorLine).
    apply list_elem_of_further.
    by apply (list_elem_of_fmap_2 (λ supportedKey, "- " +:+ supportedKey)).
Qed.

(** X2. What [setConfig] stored under a supported key is what [getConfig]
    prints afterwards: all the values for an array key, the first value
    alone for any other key. *)
Theorem setConfig_then_getConfig key (v : V) (rest : list V) store :
  key ∈ SUPPORTED_KEYS →
  fst (getConfig key (snd (setConfig key (v :: rest) store)))
  = [LogValue (Some (if _configKeyIsArray key then Many (v :: rest)
                     else One v))].
Proof.
  intros H. rewrite (setConfig_supported _ _ _ H). unfold getConfig.
  cbn [fst snd]. unfold config_get. rewrite config_set_lookup_eq.
  by destruct (_configKeyIsArray key).
Qed.

(** X3. A command on one key leaves what every other supported key holds. *)
Theorem other_keys_untouched key key' (values : list V) store :
  key' ∈ SUPPORTED_KEYS →
  key' ≠ key →
  config_get key' (snd (setConfig key values store)) = config_get key' store
  ∧ config_get key' (snd (deleteConfig key store)) = config_get key' store.
Proof.
  intros _ H. unfold config_get.
  rewrite setConfig_store, deleteConfig_store.
  case_decide; [|done]. by rewrite !config_set_lookup_ne.
Qed.

(** X4. After [deleteConfig] of a supported key, [getConfig] prints
    [undefined]; deleting again changes nothing, deleting undoes a
    [setConfig] of the key, and gives back the very store in which the
    key was not set. *)
Theorem deleteConfig_forgets key (values : list V) store :
  key ∈ SUPPORTED_KEYS →
  fst (getConfig key (snd (deleteConfig key store))) = [LogValue None]
  ∧ snd (deleteConfig key (snd (deleteConfig key store)))
    = snd (deleteConfig key store)
  ∧ snd (deleteConfig key (snd (setConfig key values store)))
    = snd (deleteConfig key store)
  ∧ (config_get key store = None →
     snd (deleteConfig key (snd (setConfig key values store))) = store).
Proof.
  intros H.
  rewrite (setConfig_supported _ _ _ H), !(deleteConfig_supported _ _ H).
  cbn [fst snd]. rewrite !config_set_twice.
  split; [|split; [done|split; [done|]]].
  - unfold getConfig, config_get. cbn [fst].
    by rewrite config_set_lookup_eq.
  - intros Hnone. unfold config_set. by apply delete_id.
Qed.

(** X5. Of two [setConfig] on one key the later one decides, and two
    [setConfig] on different keys give the same store in either order. *)
Theorem last_setConfig_wins key key' (v1 v2 : list V) store :
  snd (setConfig key v2 (snd (setConfig key v1 store)))
  = snd (setConfig key v2 store)
  ∧ (key ≠ key' →
     snd (setConfig key v1 (snd (setConfig key' v2 store)))
     = snd (setConfig key' v2 (snd (setConfig key v1 store)))).
Proof.
  rewrite !setConfig_store. split.
  - case_decide; [|done]. by rewrite config_set_twice.
  - intros Hne. repeat case_decide; try done.
    by apply config_set_commute.
Qed.

Lemma wellFormed_empty : wellFormed (∅ : gmap string (Stored V)).
Proof. intros key v Hk. by rewrite lookup_empty in Hk. Qed.

Lemma wellFormed_config_set key value (store : gmap string (Stored V)) :
  key ∈ SUPPORTED_KEYS →
  (∀ v, value = Some v → isMany v = _configKeyIsArray key) →
  wellFormed store → wellFormed (config_set key value store).
Proof.
  intros Hkey Hval Hwf k v Hk.
  destruct (decide (k = key)) as [->|Hne].
  - rewrite config_set_lookup_eq in Hk. split; [done|]. by apply Hval.
  - rewrite config_set_lookup_ne in Hk by done. by apply Hwf.
Qed.

Lemma wellFormed_runCommand (cmd : Command V) store :
  wellFormed store → wellFormed (snd (runCommand cmd store)).
Proof.
  intros Hwf. destruct cmd as [key values|key|key|]; simpl; try done.
  - rewrite setConfig_store. case_decide as Hkey; [|done].
    apply wellFormed_config_set; [done| |done].
    intros v. destruct (_configKeyIsArray key); simpl.
    + by intros [= <-].
    + destruct (values !! 0%nat); simpl; [by intros [= <-]|done].
  - rewrite deleteConfig_store. case_decide as Hkey; [|done].
    by apply wellFormed_config_set.
Qed.

(** X6. Whatever commands are run, a store that had only supported keys,
    with arrays under the array keys and single values under the others,
    still has; [getConfig] and [listConfig] do not touch the store. *)
Theorem session_keeps_store_wellFormed (cmds : list (Command V)) store :
  wellFormed store →
  wellFormed (snd (session cmds store))
  ∧ (∀ key, snd (runCommand (GetConfig key) store) = store)
  ∧ snd (runCommand ListConfig store) = store.
Proof.
  intros Hwf. split; [|done].
  revert store Hwf; induction cmds as [|cmd cmds IH]; intros store Hwf;
    [done|].
  simpl. pose proof (wellFormed_runCommand cmd store Hwf) as Hcmd.
  destruct (runCommand cmd store) as [out store'].
  specialize (IH store' Hcmd).
  by destruct (session cmds store') as [outs store''].
Qed.

End ConfigFacts.

(** ** From the configuration commands to [check] *)

Section ConfigCheckFacts.

Variable chalk : Style → string → string.
Variable parseDate : string → option Z.
Variable now : Z.
Variable months : Z.
Variable getRepo : string → string → Z → Result (list PullData).
Variable getReviews : string → string → Z → Z → Result (list Review).

Lemma readArray_wellFormed (store : gmap string (Stored string)) key :
  wellFormed store → _configKeyIsArray key = true →
  readArray (config_get key store)
  = Some (match store !! key with Some (Many l) => Some l | _ => None end).
Proof.
  intros Hwf Hkey. unfold config_get.
  destruct (store !! key) as [[s|l]|] eqn:Hk; try done.
  destruct (Hwf key (One s) Hk) as [_ H]. simpl in H. congruence.
Qed.

Lemma readString_wellFormed (store : gmap string (Stored string)) key :
  wellFormed store → _configKeyIsArray key = false →
  readString (config_get key store)
  = Some (match store !! key with Some (One s) => Some s | _ => None end).
Proof.
  intros Hwf Hkey. unfold config_get.
  destruct (store !! key) as [[s|l]|] eqn:Hk; try done.
  destruct (Hwf key (Many l) Hk) as [_ H]. simpl in H. congruence.
Qed.

Lemma configOf_wellFormed (store : gmap string (Stored string)) :
  wellFormed store →
  configOf store
  = Some {| githubAuthors :=
              match store !! "githubAuthors" with
              | Some (Many l) => Some l | _ => None end;
            githubOrg :=
              match store !! "githubOrg" with
              | Some (One s) => Some s | _ => None end;
            cacheExpiry :=
              match store !! "cacheExpiry" with
              | Some (One s) => Some s | _ => None end;
            allGithubRepos :=
              match store !! "allGithubRepos" with
              | Some (Many l) => Some l | _ => None end |}.
Proof.
  intros Hwf. unfold configOf.
  rewrite (readArray_wellFormed store "githubAuthors" Hwf eq_refl).
  rewrite (readString_wellFormed store "githubOrg" Hwf eq_refl).
  rewrite (readString_wellFormed store "cacheExpiry" Hwf eq_refl).
  by rewrite (readArray_wellFormed store "allGithubRepos" Hwf eq_refl).
Qed.

Lemma wellFormed_setConfig key values
    (store : gmap string (Stored string)) :
  wellFormed store → wellFormed (snd (setConfig key values store)).
Proof. apply (wellFormed_runCommand (SetConfig key values)). Qed.

Lemma wellFormed_deleteConfig key (store : gmap string (Stored string)) :
  wellFormed store → wellFormed (snd (deleteConfig key store)).
Proof. apply (wellFormed_runCommand (DeleteConfig key)). Qed.

Lemma supported_githubAuthors : "githubAuthors" ∈ SUPPORTED_KEYS.
Proof. apply (bool_decide_unpack _). reflexivity. Qed.

Lemma supported_githubOrg : "githubOrg" ∈ SUPPORTED_KEYS.
Proof. apply (bool_decide_unpack _). reflexivity. Qed.

Lemma supported_cacheExpiry : "cacheExpiry" ∈ SUPPORTED_KEYS.
Proof. apply (bool_decide_unpack _). reflexivity. Qed.

Lemma supported_allGithubRepos : "allGithubRepos" ∈ SUPPORTED_KEYS.
Proof. apply (bool_decide_unpack _). reflexivity. Qed.

(** Reads a key of the store a command has just written. *)
Ltac read_store :=
  rewrite ?(setConfig_supported _ _ _ supported_githubAuthors),
          ?(setConfig_supported _ _ _ supported_githubOrg),
          ?(setConfig_supported _ _ _ supported_cacheExpiry),
          ?(setConfig_supported _ _ _ supported_allGithubRepos),
          ?(deleteConfig_supported _ _ supported_githubAuthors),
          ?(deleteConfig_supported _ _ supported_githubOrg),
          ?(deleteConfig_supported _ _ supported_cacheExpiry),
          ?(deleteConfig_supported _ _ supported_allGithubRepos);
  cbn [snd];
  rewrite ?config_set_lookup_eq, ?lookup_insert_eq, ?lookup_delete_eq;
  simpl.

(** X7. The arrays put in the store with [setConfig] are the ones a later
    [check] works with: the authors when no [--authors] is given, and
    the repositories, in that order, when the repositories asked for are
    the wildcard. *)
Theorem setConfig_arrays_feed_check (store : gmap string (Stored string)) :
  wellFormed store →
  (∀ vs, ∃ cfg,
     configOf (snd (setConfig "githubAuthors" vs store)) = Some cfg
     ∧ ∀ argv opts,
         authors argv = None →
         options chalk cfg parseDate now months argv = inr opts →
         opts_authors opts = vs)
  ∧ (∀ rs, ∃ cfg,
       configOf (snd (setConfig "allGithubRepos" rs store)) = Some cfg
       ∧ ∀ opts,
           opts_repos opts = ["@"] →
           bodies (handler cfg getRepo getReviews opts)
           = map (λ repo, _checkPRsForRepo getRepo getReviews
                            (opts_org opts) repo (opts_authors opts)
                            (opts_maxCacheAge opts)) rs).
Proof.
  intros Hwf. split.
  - intros vs.
    pose proof (wellFormed_setConfig "githubAuthors" vs store Hwf) as Hwf'.
    eexists. split; [by apply configOf_wellFormed|].
    intros argv opts Hnone Hopt. unfold options in Hopt.
    destruct (_negateDate _ _ _); [done|]. injection Hopt as <-.
    cbn [opts_authors githubAuthors]. rewrite Hnone.
    by read_store.
  - intros rs.
    pose proof (wellFormed_setConfig "allGithubRepos" rs store Hwf) as Hwf'.
    eexists. split; [by apply configOf_wellFormed|].
    intros opts Hrepos. rewrite handler_bodies. f_equal.
    unfold resolveRepos. rewrite Hrepos. cbn [allGithubRepos].
    by read_store.
Qed.

Lemma configOfWords_Some (store : gmap string (Stored Word)) cfg :
  configOfWords store = Some cfg →
  readTexts (store !! "githubAuthors") = Some (githubAuthors cfg)
  ∧ readText (store !! "githubOrg") = Some (githubOrg cfg)
  ∧ readText (store !! "cacheExpiry") = Some (cacheExpiry cfg)
  ∧ readTexts (store !! "allGithubRepos") = Some (allGithubRepos cfg).
Proof.
  unfold configOfWords, config_get.
  destruct (readTexts (store !! "githubAuthors")); [|done].
  destruct (readText (store !! "githubOrg")); [|done].
  destruct (readText (store !! "cacheExpiry")); [|done].
  destruct (readTexts (store !! "allGithubRepos")); [|done].
  by intros [= <-].
Qed.

(** X8. A non-empty string put in the store with [setConfig], as the
    first word and handed over as text, is the one a later [check] works
    with: a [githubOrg] is the default of [--org] whatever the cohort
    is, and a [cacheExpiry] is the age used when no [--maxCacheAge] is
    given, so that one that cannot be parsed makes every such [check]
    fail. The other keys read as before. *)
Theorem setConfig_text_feeds_check (store : gmap string (Stored Word))
    cfg0 :
  configOfWords store = Some cfg0 →
  (∀ o rest, o ≠ "" →
     configOfWords (snd (setConfig "githubOrg" (Text o :: rest) store))
     = Some {| githubAuthors := githubAuthors cfg0;
               githubOrg := Some o;
               cacheExpiry := cacheExpiry cfg0;
               allGithubRepos := allGithubRepos cfg0 |}
     ∧ snd (orgDefault chalk
              {| githubAuthors := githubAuthors cfg0;
                 githubOrg := Some o;
                 cacheExpiry := cacheExpiry cfg0;
                 allGithubRepos := allGithubRepos cfg0 |} months) = o)
  ∧ (∀ a rest, a ≠ "" →
       configOfWords (snd (setConfig "cacheExpiry" (Text a :: rest) store))
       = Some {| githubAuthors := githubAuthors cfg0;
                 githubOrg := githubOrg cfg0;
                 cacheExpiry := Some a;
                 allGithubRepos := allGithubRepos cfg0 |}
       ∧ ∀ argv,
           maxCacheAge argv = None →
           ageGiven {| githubAuthors := githubAuthors cfg0;
                       githubOrg := githubOrg cfg0;
                       cacheExpiry := Some a;
                       allGithubRepos := allGithubRepos cfg0 |} argv = a
           ∧ (parseDate a = None →
              snd (check chalk
                     {| githubAuthors := githubAuthors cfg0;
                        githubOrg := githubOrg cfg0;
                        cacheExpiry := Some a;
                        allGithubRepos := allGithubRepos cfg0 |}
                     parseDate now months getRepo getReviews argv)
              = inl (JsError "Invalid maxCacheAge."))).
Proof.
  intros Hcfg.
  destruct (configOfWords_Some store cfg0 Hcfg) as (Ha & Ho & Hc & Hr).
  split.
  - intros o rest Hne. split.
    + unfold configOfWords, config_get.
      rewrite (setConfig_supported _ _ _ supported_githubOrg).
      cbn [snd]. rewrite config_set_lookup_eq.
      rewrite !config_set_lookup_ne by done.
      rewrite Ha, Hc, Hr. done.
    + unfold orgDefault. cbn [snd githubOrg or_string].
      by rewrite (bool_decide_eq_false_2 _ Hne).
  - intros a rest Hne. split.
    + unfold configOfWords, config_get.
      rewrite (setConfig_supported _ _ _ supported_cacheExpiry).
      cbn [snd]. rewrite config_set_lookup_eq.
      rewrite !config_set_lookup_ne by done.
      rewrite Ha, Ho, Hr. done.
    + intros argv Hnone.
      assert (Hage : ageGiven
                {| githubAuthors := githubAuthors cfg0;
                   githubOrg := githubOrg cfg0;
                   cacheExpiry := Some a;
                   allGithubRepos := allGithubRepos cfg0 |} argv = a).
      { unfold ageGiven. rewrite Hnone. cbn [cacheExpiry or_string].
        by rewrite (bool_decide_eq_false_2 _ Hne). }
      split; [done|]. intros Hparse.
      unfold check, options, _negateDate. cbn [snd].
      by rewrite Hage, Hparse.
Qed.

(** X9. After [deleteConfig] of a key, a later [check] falls back on the
    built-in default for it: every author, no repository for the
    wildcard, the cohort's organisation without a warning, and an age of
    '60 minutes'. *)
Theorem deleteConfig_restores_defaults
    (store : gmap string (Stored string)) :
  wellFormed store →
  (∃ cfg, configOf (snd (deleteConfig "githubAuthors" store)) = Some cfg
     ∧ ∀ argv opts,
         authors argv = None →
         options chalk cfg parseDate now months argv = inr opts →
         opts_authors opts = ["@"])
  ∧ (∃ cfg, configOf (snd (deleteConfig "allGithubRepos" store)) = Some cfg
       ∧ resolveRepos cfg ["@"] = [])
  ∧ (∃ cfg, configOf (snd (deleteConfig "githubOrg" store)) = Some cfg
       ∧ orgDefault chalk cfg months
         = ([], "Ada-C" +:+ pretty (months / 6)))
  ∧ (∃ cfg, configOf (snd (deleteConfig "cacheExpiry" store)) = Some cfg
       ∧ ∀ argv, maxCacheAge argv = None →
                 ageGiven cfg argv = "60 minutes").
Proof.
  intros Hwf. split; [|split; [|split]].
  - pose proof (wellFormed_deleteConfig "githubAuthors" store Hwf) as Hwf'.
    eexists. split; [by apply configOf_wellFormed|].
    intros argv opts Hnone Hopt. unfold options in Hopt.
    destruct (_negateDate _ _ _); [done|]. injection Hopt as <-.
    cbn [opts_authors githubAuthors]. rewrite Hnone.
    by read_store.
  - pose proof (wellFormed_deleteConfig "allGithubRepos" store Hwf) as Hwf'.
    eexists. split; [by apply configOf_wellFormed|].
    unfold resolveRepos. cbn [allGithubRepos].
    by read_store.
  - pose proof (wellFormed_deleteConfig "githubOrg" store Hwf) as Hwf'.
    eexists. split; [by apply configOf_wellFormed|].
    unfold orgDefault. cbn [githubOrg].
    by read_store.
  - pose proof (wellFormed_deleteConfig "cacheExpiry" store Hwf) as Hwf'.
    eexists. split; [by apply configOf_wellFormed|].
    intros argv Hnone. unfold ageGiven. rewrite Hnone. cbn [cacheExpiry].
    by read_store.
Qed.

End ConfigCheckFacts.

(** ** More on one reconciliation *)

Section ReconciliationMore.

Variable getRepo : string → string → Z → Result (list PullData).
Variable getReviews : string → string → Z → Z → Result (list Review).

Lemma filter_toPulls (users : list string) pullData :
  filter (λ pr, user pr ∈ users) (toPulls pullData)
  = toPulls (filter (λ d, user_login d ∈ users) pullData).
Proof.
  unfold toPulls. induction pullData as [|d pullData IH]; [done|].
  simpl. rewrite !filter_cons. simpl.
  case_decide; simpl; by rewrite IH.
Qed.

Lemma selected_pulls (users : list string) pullData :
  (selectPulls users (toPulls pullData)).1
  = toPulls (if _arrayIsWildcard users then pullData
             else filter (λ d, user_login d ∈ users) pullData).
Proof.
  unfold selectPulls. destruct (_arrayIsWildcard users); simpl; [done|].
  apply filter_toPulls.
Qed.

(** X10. The requests of one reconciliation: the pull-request list first and
    always; nothing else when that fetch is rejected; otherwise one
    review fetch per pull request kept, in the order of the list, which
    for explicit authors are the pull requests of these authors and no
    others. *)
Theorem review_requests_only_for_selected org repo users c :
  (∀ e, getRepo org repo c = inl e →
        requests getRepo getReviews org repo users c
        = [GetRepo org repo c])
  ∧ (∀ pullData, getRepo org repo c = inr pullData →
       requests getRepo getReviews org repo users c
       = GetRepo org repo c
         :: map (λ d, GetReviews org repo (number d) c)
                (if _arrayIsWildcard users then pullData
                 else filter (λ d, user_login d ∈ users) pullData)).
Proof.
  split.
  - intros e He. by rewrite requests_run, He.
  - intros pullData Hrepo. rewrite requests_run, Hrepo, selected_pulls.
    f_equal. unfold toPulls. rewrite map_map. done.
Qed.

(** X11. Every line of a reconciliation is about the repository at hand and,
    for explicit authors, about one of them; under the wildcard it is
    about the author of a fetched pull request. *)
Theorem lines_only_about_selected_users org repo users c r :
  r ∈ reports getRepo getReviews org repo users c →
  reportRepo r = repo
  ∧ (_arrayIsWildcard users = false → reportUser r ∈ users)
  ∧ (_arrayIsWildcard users = true →
     ∃ pullData d, getRepo org repo c = inr pullData
                   ∧ d ∈ pullData ∧ user_login d = reportUser r).
Proof.
  rewrite reports_run.
  destruct (getRepo org repo c) as [e|pullData] eqn:Hrepo;
    [by intros ?%not_elem_of_nil|].
  cbn zeta. intros [Hr|Hr]%elem_of_app.
  - unfold missing in Hr. apply list_elem_of_fmap in Hr as (u & -> & Hu).
    apply list_elem_of_filter in Hu as [Hno Hu].
    split; [done|]. split.
    + intros Hw. by rewrite (selectPulls_explicit _ _ Hw) in Hu.
    + intros Hw. rewrite (selectPulls_wildcard _ _ Hw) in Hu, Hno.
      simpl in Hu, Hno.
      apply arrDedupe_elem, list_elem_of_fmap in Hu as (pr & -> & Hpr).
      apply toPulls_elem in Hpr as (d & Hd & ->). by exists pullData, d.
  - destruct (fetchedReviews _ _ _ _ _) as [e|rs];
      [by apply not_elem_of_nil in Hr|].
    apply verdicts_user in Hr as (pr & reviews & Hpr & ->).
    assert (Huser : reportUser (verdict org repo pr reviews) = user pr)
      by (by destruct reviews).
    assert (Hrep : reportRepo (verdict org repo pr reviews) = repo)
      by (by destruct reviews).
    rewrite Huser. split; [done|]. split.
    + intros Hw. rewrite (selectPulls_explicit _ _ Hw) in Hpr.
      simpl in Hpr. by apply list_elem_of_filter in Hpr as [? _].
    + intros Hw. rewrite (selectPulls_wildcard _ _ Hw) in Hpr.
      simpl in Hpr. apply toPulls_elem in Hpr as (d & Hd & ->).
      by exists pullData, d.
Qed.

Lemma count_review_verdicts_all org repo pulls rs a :
  length rs = length pulls →
  count (isReviewFor a) (zip_with (verdict org repo) pulls rs)
  = count (λ pr, bool_decide (user pr = a)) pulls.
Proof.
  revert rs; induction pulls as [|pr pulls IH]; intros [|reviews rs] Hlen;
    try done.
  cbn [zip_with]. rewrite !count_cons.
  destruct (verdict_user org repo pr reviews a) as [-> _].
  rewrite IH; [done|]. simpl in Hlen. lia.
Qed.

Lemma count_toPulls pullData a :
  count (λ pr, bool_decide (user pr = a)) (toPulls pullData)
  = count (λ d, bool_decide (user_login d = a)) pullData.
Proof.
  unfold toPulls. induction pullData as [|d pullData IH]; [done|].
  cbn [map]. by rewrite !count_cons, IH.
Qed.

Lemma count_filter_users (users : list string) pullData a :
  count (λ d, bool_decide (user_login d = a))
        (filter (λ d, user_login d ∈ users) pullData)
  = if bool_decide (a ∈ users)
    then count (λ d, bool_decide (user_login d = a)) pullData
    else 0%nat.
Proof.
  induction pullData as [|d pullData IH].
  - by case_bool_decide.
  - rewrite filter_cons, (count_cons _ d pullData).
    destruct (decide (user_login d ∈ users)) as [Hd|Hd].
    + rewrite count_cons, IH.
      case_bool_decide as Ha; [done|].
      rewrite bool_decide_eq_false_2; [done|]. by intros <-.
    + rewrite IH. case_bool_decide as Ha; [|done].
      rewrite bool_decide_eq_false_2; [done|]. by intros <-.
Qed.

(** X12. When a reconciliation goes through, an author gets as many review
    lines as they have fetched pull requests, provided the author was
    asked for, by name or by the wildcard; an author who was not asked
    for gets none. *)
Theorem one_review_line_per_pull org repo users c pullData a :
  getRepo org repo c = inr pullData →
  outcome getRepo getReviews org repo users c = inr tt →
  count (isReviewFor a) (reports getRepo getReviews org repo users c)
  = if _arrayIsWildcard users || bool_decide (a ∈ users)
    then count (λ d, bool_decide (user_login d = a)) pullData
    else 0%nat.
Proof.
  intros Hrepo Hok. rewrite outcome_run, Hrepo in Hok.
  rewrite reports_run, Hrepo. cbn zeta.
  destruct (fetchedReviews _ _ _ _ _) as [e|rs] eqn:Hrs; [done|].
  rewrite count_app, count_review_missing.
  rewrite count_review_verdicts_all
    by (by eapply fetchedReviews_length).
  rewrite selected_pulls, count_toPulls.
  destruct (_arrayIsWildcard users); [done|]. simpl.
  apply count_filter_users.
Qed.

Lemma reviewLines_fetched org repo users c pullData :
  getRepo org repo c = inr pullData →
  reviewLines getRepo getReviews org repo users c
  = match fetchedReviews getReviews org repo c
            (selectPulls users (toPulls pullData)).1 with
    | inl _ => []
    | inr rs => zip_with (verdict org repo)
                  (selectPulls users (toPulls pullData)).1 rs
    end.
Proof.
  intros Hrepo. unfold reviewLines. rewrite reports_run, Hrepo. cbn zeta.
  rewrite filter_app, missing_only_NoPulls.
  destruct (fetchedReviews _ _ _ _ _); [done|].
  by rewrite verdicts_no_NoPulls.
Qed.

(** X13. Explicit authors that include the author of every fetched pull
    request give the requests, the outcome and the review lines of the
    wildcard. *)
Theorem listing_every_author_is_the_wildcard org repo users c pullData :
  getRepo org repo c = inr pullData →
  (∀ d, d ∈ pullData → user_login d ∈ users) →
  requests getRepo getReviews org repo users c
  = requests getRepo getReviews org repo ["@"] c
  ∧ outcome getRepo getReviews org repo users c
    = outcome getRepo getReviews org repo ["@"] c
  ∧ reviewLines getRepo getReviews org repo users c
    = reviewLines getRepo getReviews org repo ["@"] c.
Proof.
  intros Hrepo Hall.
  assert (Hsel : (selectPulls users (toPulls pullData)).1
                 = (selectPulls ["@"] (toPulls pullData)).1).
  { rewrite !selected_pulls. simpl.
    destruct (_arrayIsWildcard users); [done|].
    by rewrite (filter_all _ _ Hall). }
  rewrite !requests_run, !outcome_run, Hrepo.
  rewrite !(reviewLines_fetched _ _ _ _ _ Hrepo), Hsel. done.
Qed.

Lemma joined_all_inr {A} (rs : list (Result A)) :
  (∃ l, joined rs = inr l) ↔ ∀ r, r ∈ rs → ∃ a, r = inr a.
Proof.
  split.
  - intros [l Hl] r Hr. apply joined_inr in Hl. subst rs.
    apply list_elem_of_fmap in Hr as (a & -> & _). by exists a.
  - induction rs as [|r rs IH]; intros Hall; [by exists []|].
    destruct (Hall r (list_elem_of_here _ _)) as [a ->].
    destruct IH as [l Hl].
    { intros r' Hr'. apply Hall. by apply list_elem_of_further. }
    exists (a :: l). simpl. by rewrite Hl.
Qed.

(** X14. A reconciliation goes through exactly when the pull-request list
    and the reviews of every pull request kept could be fetched; when it
    fails, it fails with the rejection of one of these fetches, never
    with an error of its own. *)
Theorem failure_comes_from_a_fetch org repo users c :
  (outcome getRepo getReviews org repo users c = inr tt ↔
   ∃ pullData,
     getRepo org repo c = inr pullData
     ∧ ∀ pr, pr ∈ (selectPulls users (toPulls pullData)).1 →
             ∃ reviews, getReviews org repo (id pr) c = inr reviews)
  ∧ (∀ e, outcome getRepo getReviews org repo users c = inl e →
       getRepo org repo c = inl e
       ∨ ∃ pullData pr,
           getRepo org repo c = inr pullData
           ∧ pr ∈ (selectPulls users (toPulls pullData)).1
           ∧ getReviews org repo (id pr) c = inl e).
Proof.
  rewrite outcome_run. split.
  - destruct (getRepo org repo c) as [e|pullData].
    { split; [done|]. by intros (pullData & [=] & _). }
    split.
    + destruct (fetchedReviews _ _ _ _ _) as [e|rs] eqn:Hrs; [done|].
      intros _. exists pullData. split; [done|]. intros pr Hpr.
      unfold fetchedReviews in Hrs.
      destruct (proj1 (joined_all_inr _) (ex_intro _ rs Hrs)
                  (getReviews org repo (id pr) c)) as [reviews Hrev].
      { by apply (list_elem_of_fmap_2
                    (λ pr, getReviews org repo (id pr) c)). }
      by exists reviews.
    + intros (pullData' & [= <-] & Hall).
      destruct (proj2 (joined_all_inr
        (map (λ pr, getReviews org repo (id pr) c)
             (selectPulls users (toPulls pullData)).1))) as [rs Hrs].
      { intros r Hr. apply list_elem_of_fmap in Hr as (pr & -> & Hpr).
        by apply Hall. }
      unfold fetchedReviews. by rewrite Hrs.
  - intros e. destruct (getRepo org repo c) as [e'|pullData].
    { intros [= ->]. by left. }
    destruct (fetchedReviews _ _ _ _ _) as [e'|rs] eqn:Hrs; [|done].
    intros [= ->]. right. unfold fetchedReviews in Hrs.
    apply joined_inl, list_elem_of_fmap in Hrs as (pr & Hpr & Hin).
    by exists pullData, pr.
Qed.

Lemma missing_all_NoPulls repo users pulls :
  filter (λ r, isNoPulls r = true) (missing repo users pulls)
  = missing repo users pulls.
Proof.
  apply filter_all. intros r Hr. unfold missing in Hr.
  by apply list_elem_of_fmap in Hr as (u & -> & _).
Qed.

Lemma verdicts_none_NoPulls org repo pulls rs :
  filter (λ r, isNoPulls r = true) (zip_with (verdict org repo) pulls rs)
  = [].
Proof.
  revert rs; induction pulls as [|pr pulls IH]; intros [|reviews rs];
    try done.
  simpl. rewrite filter_cons_False by (by destruct reviews). apply IH.
Qed.

Lemma missing_users_explicit repo (users : list string) pullData :
  map reportUser
      (missing repo users
         (filter (λ pr, user pr ∈ users) (toPulls pullData)))
  = filter (λ u, Forall (λ d, user_login d ≠ u) pullData) users.
Proof.
  unfold missing. rewrite map_map. cbn [reportUser]. rewrite map_id.
  apply filter_agree. intros u Hu. rewrite Forall_forall.
  rewrite some_by_false. split.
  - intros H d Hd Heq.
    apply (H {| id := number d; user := user_login d |}); [|done].
    apply list_elem_of_filter. split.
    + cbn [user]. subst u. exact Hu.
    + apply toPulls_elem. by exists d.
  - intros H pr Hpr Heq. apply list_elem_of_filter in Hpr as [_ Hpr].
    apply toPulls_elem in Hpr as (d & Hd & ->). cbn [user] in Heq.
    by apply (H d).
Qed.

(** X15. The "no pulls found" lines of a reconciliation come before all its
    other lines; for explicit authors they name, in the order of the
    list, the listed users without a fetched pull request. *)
Theorem no_pulls_lines_come_first org repo users c :
  reports getRepo getReviews org repo users c
  = filter (λ r, isNoPulls r = true)
           (reports getRepo getReviews org repo users c)
    ++ reviewLines getRepo getReviews org repo users c
  ∧ (∀ pullData,
       _arrayIsWildcard users = false →
       getRepo org repo c = inr pullData →
       map reportUser
           (filter (λ r, isNoPulls r = true)
                   (reports getRepo getReviews org repo users c))
       = filter (λ u, Forall (λ d, user_login d ≠ u) pullData) users).
Proof.
  unfold reviewLines. rewrite reports_run.
  destruct (getRepo org repo c) as [e|pullData]; [by split|].
  cbn zeta. rewrite !filter_app, missing_all_NoPulls, missing_only_NoPulls.
  destruct (fetchedReviews _ _ _ _ _) as [e|rs]; simpl.
  - split; [by rewrite !app_nil_r|].
    intros ? Hw [= <-]. rewrite app_nil_r.
    rewrite (selectPulls_explicit _ _ Hw). cbn [fst snd].
    apply missing_users_explicit.
  - rewrite verdicts_none_NoPulls, verdicts_no_NoPulls.
    split; [by rewrite !app_nil_r|].
    intros ? Hw [= <-]. rewrite app_nil_r.
    rewrite (selectPulls_explicit _ _ Hw). cbn [fst snd].
    apply missing_users_explicit.
Qed.

End ReconciliationMore.

(** ** More on the batch and on the defaults *)

Section BatchMore.

Variable config : Config.
Variable getRepo : string → string → Z → Result (list PullData).
Variable getReviews : string → string → Z → Z → Result (list Review).

Lemma exec_no_promises b schedule : promises b = [] → exec b schedule = b.
Proof.
  intros Hnone. unfold exec.
  induction schedule as [|i s IH]; [done|].
  simpl. unfold complete at 2. by rewrite Hnone.
Qed.

(** X16. [check @] without configured repositories, or with an empty list of
    them, starts nothing: there is no body and no promise, and the
    promise the handler returns is fulfilled from the start. *)
Theorem wildcard_without_repositories opts schedule :
  opts_repos opts = ["@"] →
  allGithubRepos config = None ∨ allGithubRepos config = Some [] →
  bodies (batchAfter config getRepo getReviews opts schedule) = []
  ∧ promises (batchAfter config getRepo getReviews opts schedule) = []
  ∧ returned (batchAfter config getRepo getReviews opts schedule)
    = Fulfilled.
Proof.
  intros Hrepos Hcfg.
  assert (Hnone : resolveRepos config (opts_repos opts) = []).
  { unfold resolveRepos. rewrite Hrepos. by destruct Hcfg as [-> | ->]. }
  unfold batchAfter, handler. rewrite Hnone. simpl.
  by rewrite exec_no_promises.
Qed.

End BatchMore.

Section DefaultsMore.

Variable chalk : Style → string → string.
Variable config : Config.
Variable months : Z.

(** X18. The default of [--org] prints its warning exactly when a name is
    configured that starts with 'Ada-C' and is not the one computed for
    the current cohort. A configured name that is not empty is the
    default, with or without the warning; an empty one counts as none. *)
Theorem org_warning_only_for_another_cohort :
  (fst (orgDefault chalk config months) ≠ [] ↔
   ∃ cfgOrg, githubOrg config = Some cfgOrg
             ∧ String.prefix "Ada-C" cfgOrg = true
             ∧ cfgOrg ≠ "Ada-C" +:+ pretty (months / 6))
  ∧ (∀ cfgOrg, githubOrg config = Some cfgOrg → cfgOrg ≠ "" →
               snd (orgDefault chalk config months) = cfgOrg)
  ∧ (githubOrg config = Some "" →
     orgDefault chalk config months
     = ([], "Ada-C" +:+ pretty (months / 6))).
Proof.
  unfold orgDefault. split; [|split].
  - cbn [fst]. destruct (githubOrg config) as [cfgOrg|].
    2:{ split; [done|]. by intros (? & [=] & _). }
    split.
    + intros Hwarn. exists cfgOrg. split; [done|].
      destruct (String.prefix "Ada-C" cfgOrg);
        [|by rewrite andb_false_r in Hwarn].
      split; [done|]. intros Heq.
      rewrite (bool_decide_eq_true_2 _ Heq), andb_false_r in Hwarn. done.
    + intros (? & [= <-] & Hpre & Hne). rewrite Hpre.
      rewrite (bool_decide_eq_false_2 _ Hne).
      rewrite bool_decide_eq_false_2 by (by intros ->). done.
  - intros cfgOrg -> Hne. cbn [snd]. unfold or_string.
    by rewrite (bool_decide_eq_false_2 _ Hne).
  - by intros ->.
Qed.

Lemma AdaC_inj (a b : string) : "Ada-C" +:+ a = "Ada-C" +:+ b → a = b.
Proof. simpl. by intros [= H]. Qed.

(** X19. Without a configured name, two dates get the same default
    organisation exactly when they fall in the same cohort, and six
    months later the default is that of the next cohort. *)
Theorem org_name_changes_with_cohort (months' : Z) :
  githubOrg config = None →
  (snd (orgDefault chalk config months)
   = snd (orgDefault chalk config months')
   ↔ months / 6 = months' / 6)
  ∧ snd (orgDefault chalk config (months + 6))
    = "Ada-C" +:+ pretty (months / 6 + 1).
Proof.
  intros Hnone. unfold orgDefault. rewrite Hnone. cbn [snd or_string].
  split; [split|].
  - intros H. apply AdaC_inj in H. by apply (inj pretty) in H.
  - by intros ->.
  - replace ((months + 6) / 6) with (months / 6 + 1); [done|].
    replace (months + 6) with (months + 1 * 6) by lia.
    rewrite Z.div_add by lia. done.
Qed.

End DefaultsMore.

(** ** The further theorems at work in the small world *)

Lemma unsupported_key_changes_nothing_witness :
  snd (setConfig "githubToken" ["t0k3n"] (∅ : gmap string (Stored string)))
  = ∅.
Proof.
  destruct (unsupported_key_changes_nothing "githubToken" ["t0k3n"]
              (∅ : gmap string (Stored string))) as (_ & _ & Hbad).
  destruct Hbad as (Hstore & _).
  - apply (bool_decide_unpack _). reflexivity.
  - exact Hstore.
Defined.

Lemma setConfig_then_getConfig_witness :
  fst (getConfig "githubOrg"
         (snd (setConfig "githubOrg" ["Ada-C3"; "Ada-C4"]
                 (∅ : gmap string (Stored string)))))
  = [LogValue (Some (One "Ada-C3"))]
  ∧ fst (getConfig "githubAuthors"
           (snd (setConfig "githubAuthors" ["alice"; "bob"]
                   (∅ : gmap string (Stored string)))))
    = [LogValue (Some (Many ["alice"; "bob"]))].
Proof.
  split.
  - apply (setConfig_then_getConfig "githubOrg" "Ada-C3" ["Ada-C4"]
             (∅ : gmap string (Stored string))).
    apply (bool_decide_unpack _). reflexivity.
  - apply (setConfig_then_getConfig "githubAuthors" "alice" ["bob"]
             (∅ : gmap string (Stored string))).
    apply (bool_decide_unpack _). reflexivity.
Defined.

Lemma other_keys_untouched_witness :
  config_get "githubAuthors"
    (snd (setConfig "githubOrg" ["Ada-C3"]
            (<["githubAuthors" := Many ["alice"]]> ∅)))
  = config_get "githubAuthors" (<["githubAuthors" := Many ["alice"]]> ∅).
Proof.
  destruct (other_keys_untouched "githubOrg" "githubAuthors" ["Ada-C3"]
              (<["githubAuthors" := Many ["alice"]]> ∅)) as [Hset _].
  - apply (bool_decide_unpack _). reflexivity.
  - discriminate.
  - exact Hset.
Defined.

Lemma deleteConfig_forgets_witness :
  fst (getConfig "cacheExpiry"
         (snd (deleteConfig "cacheExpiry"
                 (<["cacheExpiry" := One "2 hours"]> ∅))))
  = [LogValue None]
  ∧ snd (deleteConfig "cacheExpiry"
           (snd (setConfig "cacheExpiry" ["2 hours"]
                   (∅ : gmap string (Stored string))))) = ∅.
Proof.
  split.
  - destruct (deleteConfig_forgets "cacheExpiry" ["2 hours"]
                (<["cacheExpiry" := One "2 hours"]> ∅)) as (Hget & _).
    + apply (bool_decide_unpack _). reflexivity.
    + exact Hget.
  - destruct (deleteConfig_forgets "cacheExpiry" ["2 hours"]
                (∅ : gmap string (Stored string))) as (_ & _ & _ & Hback).
    + apply (bool_decide_unpack _). reflexivity.
    + apply Hback. reflexivity.
Defined.

Lemma last_setConfig_wins_witness :
  snd (setConfig "githubOrg" ["Ada-C4"]
         (snd (setConfig "githubOrg" ["Ada-C3"]
                 (∅ : gmap string (Stored string)))))
  = snd (setConfig "githubOrg" ["Ada-C4"] ∅)
  ∧ snd (setConfig "githubOrg" ["Ada-C3"]
           (snd (setConfig "cacheExpiry" ["2 hours"]
                   (∅ : gmap string (Stored string)))))
    = snd (setConfig "cacheExpiry" ["2 hours"]
             (snd (setConfig "githubOrg" ["Ada-C3"] ∅))).
Proof.
  destruct (last_setConfig_wins "githubOrg" "cacheExpiry" ["Ada-C3"]
              ["Ada-C4"] (∅ : gmap string (Stored string))) as [Hlast _].
  destruct (last_setConfig_wins "githubOrg" "cacheExpiry" ["Ada-C3"]
              ["2 hours"] (∅ : gmap string (Stored string))) as [_ Hswap].
  split; [exact Hlast|]. apply Hswap. discriminate.
Defined.

Lemma session_keeps_store_wellFormed_witness :
  wellFormed
    (snd (session [SetConfig "githubAuthors" ["alice"; "bob"];
                   SetConfig "colour" ["red"];
                   DeleteConfig "githubOrg";
                   GetConfig "githubAuthors";
                   ListConfig]
                  (∅ : gmap string (Stored string)))).
Proof.
  apply (session_keeps_store_wellFormed
           [SetConfig "githubAuthors" ["alice"; "bob"];
            SetConfig "colour" ["red"];
            DeleteConfig "githubOrg";
            GetConfig "githubAuthors";
            ListConfig] (∅ : gmap string (Stored string))).
  apply wellFormed_empty.
Defined.

Lemma setConfig_arrays_feed_check_witness :
  ∃ cfg,
    configOf (snd (setConfig "allGithubRepos" ["widgets"; "gadgets"] ∅))
      = Some cfg
    ∧ bodies (handler cfg Scenario.getRepo Scenario.getReviews
                (Scenario.optsFor ["@"]))
      = map (λ repo, _checkPRsForRepo Scenario.getRepo Scenario.getReviews
                       "Ada-C16" repo ["alice"; "bob"]
                       (Scenario.now - 3600000))
            ["widgets"; "gadgets"].
Proof.
  destruct (setConfig_arrays_feed_check plain Scenario.parseDate Scenario.now
              Scenario.months Scenario.getRepo Scenario.getReviews ∅
              wellFormed_empty) as [_ Hrepos].
  destruct (Hrepos ["widgets"; "gadgets"]) as (cfg & Hcfg & Hbodies).
  exists cfg. split; [exact Hcfg|].
  apply (Hbodies (Scenario.optsFor ["@"])). reflexivity.
Defined.

Lemma setConfig_text_feeds_check_witness :
  configOfWords
    (snd (setConfig "githubOrg" [Text "my-team"; Number "7"] ∅))
  = Some {| githubAuthors := None; githubOrg := Some "my-team";
            cacheExpiry := None; allGithubRepos := None |}
  ∧ snd (orgDefault plain
         {| githubAuthors := None; githubOrg := Some "my-team";
            cacheExpiry := None; allGithubRepos := None |} Scenario.months)
  = "my-team"
  ∧ snd (check plain
           {| githubAuthors := None; githubOrg := None;
              cacheExpiry := Some "soonish"; allGithubRepos := None |}
           Scenario.parseDate Scenario.now Scenario.months
           Scenario.getRepo Scenario.getReviews (Scenario.argvFor None))
    = inl (JsError "Invalid maxCacheAge.").
Proof.
  destruct (setConfig_text_feeds_check plain Scenario.parseDate Scenario.now
              Scenario.months Scenario.getRepo Scenario.getReviews
              ∅ Scenario.unset) as [Horg Hage]; [reflexivity|].
  destruct (Horg "my-team" [Number "7"]) as [Hcfg Hdef]; [discriminate|].
  split; [exact Hcfg|]. split; [exact Hdef|].
  destruct (Hage "soonish" []) as [_ Hcheck]; [discriminate|].
  destruct (Hcheck (Scenario.argvFor None)) as [_ Hfail]; [reflexivity|].
  apply Hfail. reflexivity.
Defined.

Lemma deleteConfig_restores_defaults_witness :
  ∃ cfg,
    configOf (snd (deleteConfig "githubOrg"
                     (<["githubOrg" := One "Ada-C3"]> ∅))) = Some cfg
    ∧ orgDefault plain cfg Scenario.months = ([], "Ada-C16").
Proof.
  destruct (deleteConfig_restores_defaults plain Scenario.parseDate
              Scenario.now Scenario.months
              (<["githubOrg" := One "Ada-C3"]> ∅))
    as (_ & _ & Horg & _).
  - apply (wellFormed_setConfig "githubOrg" ["Ada-C3"] ∅ wellFormed_empty).
  - destruct Horg as (cfg & Hcfg & Hdef). exists cfg.
    split; [exact Hcfg | exact Hdef].
Defined.

Lemma review_requests_only_for_selected_witness :
  requests Scenario.getRepo Scenario.getReviews "Ada-C16" "widgets" ["bob"] 0
  = [GetRepo "Ada-C16" "widgets" 0]
  ∧ requests Scenario.getRepo Scenario.getReviews "Ada-C16" "down" ["@"] 0
    = [GetRepo "Ada-C16" "down" 0].
Proof.
  split.
  - destruct (review_requests_only_for_selected Scenario.getRepo
                Scenario.getReviews "Ada-C16" "widgets" ["bob"] 0)
      as [_ Hok].
    apply (Hok [{| number := 1; user_login := "alice" |}]). reflexivity.
  - destruct (review_requests_only_for_selected Scenario.getRepo
                Scenario.getReviews "Ada-C16" "down" ["@"] 0)
      as [Hfail _].
    apply (Hfail FetchError). reflexivity.
Defined.

Lemma lines_only_about_selected_users_witness :
  reportRepo (NoPulls "bob" "widgets") = "widgets"
  ∧ reportUser (NoPulls "bob" "widgets") ∈ ["alice"; "bob"].
Proof.
  destruct (lines_only_about_selected_users Scenario.getRepo
              Scenario.getReviews "Ada-C16" "widgets" ["alice"; "bob"] 0
              (NoPulls "bob" "widgets")) as (Hrepo & Huser & _).
  - apply list_elem_of_here.
  - split; [exact Hrepo|]. apply Huser. reflexivity.
Defined.

Lemma one_review_line_per_pull_witness :
  count (isReviewFor "carol")
        (reports Scenario.getRepo Scenario.getReviews "Ada-C16" "gadgets"
                 ["@"] 0) = 1%nat.
Proof.
  apply (one_review_line_per_pull Scenario.getRepo Scenario.getReviews
           "Ada-C16" "gadgets" ["@"] 0
           [{| number := 2; user_login := "carol" |}] "carol");
    reflexivity.
Defined.

Lemma listing_every_author_is_the_wildcard_witness :
  reviewLines Scenario.getRepo Scenario.getReviews "Ada-C16" "widgets"
              ["alice"; "bob"] 0
  = reviewLines Scenario.getRepo Scenario.getReviews "Ada-C16" "widgets"
                ["@"] 0.
Proof.
  destruct (listing_every_author_is_the_wildcard Scenario.getRepo
              Scenario.getReviews "Ada-C16" "widgets" ["alice"; "bob"] 0
              [{| number := 1; user_login := "alice" |}])
    as (_ & _ & Hlines).
  - reflexivity.
  - intros d ->%list_elem_of_singleton. apply list_elem_of_here.
  - exact Hlines.
Defined.

Lemma failure_comes_from_a_fetch_witness :
  Scenario.getRepo "Ada-C16" "flaky" 0 = inl FetchError
  ∨ ∃ pullData pr,
      Scenario.getRepo "Ada-C16" "flaky" 0 = inr pullData
      ∧ pr ∈ (selectPulls ["alice"; "bob"] (toPulls pullData)).1
      ∧ Scenario.getReviews "Ada-C16" "flaky" (id pr) 0 = inl FetchError.
Proof.
  destruct (failure_comes_from_a_fetch Scenario.getRepo Scenario.getReviews
              "Ada-C16" "flaky" ["alice"; "bob"] 0) as [_ Hfail].
  apply (Hfail FetchError). reflexivity.
Defined.

Lemma no_pulls_lines_come_first_witness :
  map reportUser
      (filter (λ r, isNoPulls r = true)
              (reports Scenario.getRepo Scenario.getReviews "Ada-C16"
                       "widgets" ["bob"; "alice"; "dan"] 0))
  = ["bob"; "dan"].
Proof.
  destruct (no_pulls_lines_come_first Scenario.getRepo Scenario.getReviews
              "Ada-C16" "widgets" ["bob"; "alice"; "dan"] 0) as [_ Hnames].
  apply (Hnames [{| number := 1; user_login := "alice" |}]); reflexivity.
Defined.

Lemma wildcard_without_repositories_witness :
  returned (batchAfter Scenario.unset Scenario.getRepo Scenario.getReviews
              (Scenario.optsFor ["@"]) [0; 1]%nat) = Fulfilled.
Proof.
  destruct (wildcard_without_repositories Scenario.unset Scenario.getRepo
              Scenario.getReviews (Scenario.optsFor ["@"]) [0; 1]%nat)
    as (_ & _ & Hret).
  - reflexivity.
  - left. reflexivity.
  - exact Hret.
Defined.

Lemma org_warning_only_for_another_cohort_witness :
  fst (orgDefault plain Scenario.config Scenario.months) ≠ []
  ∧ snd (orgDefault plain Scenario.config Scenario.months) = "Ada-C3".
Proof.
  destruct (org_warning_only_for_another_cohort plain Scenario.config
              Scenario.months) as (Hwarn & Hname & _).
  split.
  - apply Hwarn. exists "Ada-C3".
    split; [reflexivity|]. split; [reflexivity | discriminate].
  - apply (Hname "Ada-C3"); [reflexivity | discriminate].
Defined.

Lemma org_name_changes_with_cohort_witness :
  snd (orgDefault plain Scenario.unset 100)
  = snd (orgDefault plain Scenario.unset 101)
  ∧ snd (orgDefault plain Scenario.unset (100 + 6)) = "Ada-C17".
Proof.
  destruct (org_name_changes_with_cohort plain Scenario.unset 100 101)
    as [Hsame Hnext]; [reflexivity|].
  split; [apply Hsame; reflexivity | exact Hnext].
Defined.
